(** * CIB impact processor: indicator formulas, reference reload, cost projection

    A shallow embedding of [Data Processing/processor.py].

    Numbers.  The program computes on IEEE doubles held in pandas columns,
    where NaN doubles as the null marker.  A cell is modelled by [num]:
    an exact rational, one of the two infinities, or NaN.  Rounding error,
    overflow and the sign of zero are outside the model; the special values,
    which decide every guard in the source ([fillna], [replace], the
    [!= 0] tests, [pd.cut]), are inside it.  Statements over [num] say
    which formula the program computes.  Where rounding error itself is
    the question, the lines concerned are embedded a second time on
    binary64 floats, in the module [Doubles]. *)

From Stdlib Require Import QArith Qcanon ZArith Lia Lqa Ascii.
From Stdlib Require PrimFloat.
From stdpp Require Import base numbers option list strings gmap sorting.

Local Open Scope Z_scope.

(** ** Cells *)

Inductive num : Type :=
  | Fin (q : Qc)
  | PInf
  | NInf
  | NaN.

Global Instance num_eq_dec : EqDecision num.
Proof. solve_decision. Defined.

Definition Qc_sgn (q : Qc) : comparison := (0 ?= q)%Qc.

Definition isna (x : num) : bool :=
  match x with NaN => true | _ => false end.

(** [Series.fillna(v)] on one cell. *)
Definition fillna (v : Qc) (x : num) : num :=
  match x with NaN => Fin v | _ => x end.

(** IEEE addition. *)
Definition nadd (x y : num) : num :=
  match x, y with
  | NaN, _ | _, NaN => NaN
  | Fin a, Fin b => Fin (a + b)
  | PInf, NInf | NInf, PInf => NaN
  | PInf, _ | _, PInf => PInf
  | NInf, _ | _, NInf => NInf
  end.

(** IEEE multiplication. *)
Definition nmul (x y : num) : num :=
  match x, y with
  | NaN, _ | _, NaN => NaN
  | Fin a, Fin b => Fin (a * b)
  | Fin a, PInf | PInf, Fin a =>
      match Qc_sgn a with Eq => NaN | Lt => PInf | Gt => NInf end
  | Fin a, NInf | NInf, Fin a =>
      match Qc_sgn a with Eq => NaN | Lt => NInf | Gt => PInf end
  | PInf, PInf | NInf, NInf => PInf
  | PInf, NInf | NInf, PInf => NInf
  end.

(** IEEE division; a zero divisor gives an infinity of the sign of the
    dividend, or NaN for 0/0. *)
Definition ndiv (x y : num) : num :=
  match x, y with
  | NaN, _ | _, NaN => NaN
  | Fin a, Fin b =>
      if decide (b = 0%Qc) then
        match Qc_sgn a with Eq => NaN | Lt => PInf | Gt => NInf end
      else Fin (a / b)
  | Fin _, (PInf | NInf) => Fin 0
  | PInf, Fin b => match Qc_sgn b with Gt => NInf | _ => PInf end
  | NInf, Fin b => match Qc_sgn b with Gt => PInf | _ => NInf end
  | (PInf | NInf), (PInf | NInf) => NaN
  end.

(** [Series.sum()]: NaN cells are skipped, the empty sum is 0. *)
Definition nansum (xs : list num) : num :=
  foldr (fun x acc => if isna x then acc else nadd x acc) (Fin 0) xs.

(** Integer and decimal literals. *)
Definition qz (n : Z) : Qc := Q2Qc (inject_Z n).
Definition dec (n : Z) (d : positive) : Qc := Q2Qc (n # d).

(** ** Rounding

    [Series.round(d)] is numpy's [rint(x * 10^d) / 10^d], ties to even. *)

Definition rint (q : Qc) : Z :=
  let n := Qnum q in
  let d := Zpos (Qden q) in
  let f := n / d in
  let r := 2 * (n mod d) in
  if r <? d then f
  else if d <? r then f + 1
  else if Z.even f then f else f + 1.

Definition round_dp (d : nat) (q : Qc) : Qc :=
  (qz (rint (q * qz (10 ^ Z.of_nat d))) / qz (10 ^ Z.of_nat d))%Qc.

Definition nround (d : nat) (x : num) : num :=
  match x with Fin q => Fin (round_dp d q) | _ => x end.

(** ** Python-side outcomes *)

(** The four result tables, each declared with a foreign key on
    [solris_lookup(solris_code)]. *)
Inductive result_table : Type :=
  | biocapacity_results
  | carbon_sequestration_results
  | water_filtration_results
  | aesthetic_quality_results.

Global Instance result_table_eq_dec : EqDecision result_table.
Proof. solve_decision. Defined.

(** PostgreSQL failures as the driver reports them; only the message text
    reaches the handler in [load_solris_lookup_table]. *)
Inductive sql_error : Type :=
  | ForeignKeyViolation (child : result_table)
  | UndefinedTable (name : string)
  | UniqueViolation (constraint : string)
  | NumericValueOutOfRange (msg : string)
  | InFailedSqlTransaction.

Inductive exn : Type :=
  | ValueError (msg : string)
  | DBAPIError (e : sql_error).

Inductive result (A : Type) : Type :=
  | Ok (a : A)
  | Raise (e : exn).
Arguments Ok {A} a.
Arguments Raise {A} e.

(** Records written through [logger]; only warnings carry data the
    specification speaks about. *)
Inductive log_record : Type :=
  | Warning_missing_lookup (codes : list Z).

(** ** Reference rows and area rows *)

(** A row of [solris_lookup] as stored: every column is NOT NULL after
    [dropna]. *)
Record lookup_row : Type := LookupRow {
  solris_code : Z;
  solris_class : string;
  biocapacity_category : string;
  biocapacity_conversion_factor : Qc;
  lulc_category : string;
  agc_tc_ha : Qc;
  bgc_tc_ha : Qc;
  soc_tc_ha : Qc;
  deoc_tc_ha : Qc;
  naturalness : Qc;
  description : string
}.

(** A row of the Excel sheet: either cell may be empty. *)
Record area_row : Type := AreaRow {
  gridcode : option Z;
  SUM_Area_Ha : option Qc
}.

(** [df.groupby("gridcode")["SUM_Area_Ha"].sum().reset_index()]: rows with
    an empty key are dropped, empty areas count for nothing, the groups
    come out in increasing key order. *)
Fixpoint agg_insert (k : Z) (a : Qc) (acc : list (Z * Qc)) : list (Z * Qc) :=
  match acc with
  | [] => [(k, a)]
  | (k', a') :: rest =>
      if k <? k' then (k, a) :: acc
      else if k =? k' then (k', (a' + a)%Qc) :: rest
      else (k', a') :: agg_insert k a rest
  end.

Definition groupby_sum (df : list area_row) : list (Z * Qc) :=
  foldl (fun acc r =>
           match gridcode r with
           | None => acc
           | Some k => agg_insert k (default 0%Qc (SUM_Area_Ha r)) acc
           end) [] df.

(** A row of [agg_df.merge(lookup_df, left_on="gridcode",
    right_on="solris_code", how="left")]: the lookup columns are all null
    exactly when no lookup row matched. *)
Record merged_row : Type := MergedRow {
  m_gridcode : Z;
  area_hectares : Qc;
  m_lookup : option lookup_row
}.

Definition merge_left (agg : list (Z * Qc)) (lookup : list lookup_row)
  : list merged_row :=
  agg ≫= (fun ka =>
    match filter (fun l => solris_code l = ka.1) lookup with
    | [] => [MergedRow ka.1 ka.2 None]
    | ms => (fun l => MergedRow ka.1 ka.2 (Some l)) <$> ms
    end).

(** A numeric lookup column of a merged row. *)
Definition col (f : lookup_row -> Qc) (m : merged_row) : num :=
  match m_lookup m with Some l => Fin (f l) | None => NaN end.

Definition col_solris_code (m : merged_row) : option Z :=
  solris_code <$> m_lookup m.
Definition col_solris_class (m : merged_row) : option string :=
  solris_class <$> m_lookup m.

(** [Series.unique()]: first occurrences, in order. *)
Fixpoint unique (l : list Z) : list Z :=
  match l with
  | [] => []
  | x :: l' => x :: filter (fun y => y ≠ x) (unique l')
  end.

(** [merged[merged['solris_class'].isna()]['gridcode'].unique()] and the
    warning that follows it. *)
Definition missing_codes (merged : list merged_row) : list Z :=
  unique (m_gridcode <$> filter (fun m => col_solris_class m = None) merged).

Definition warn_missing (merged : list merged_row) : list log_record :=
  if decide (0 < length (missing_codes merged))%nat
  then [Warning_missing_lookup (missing_codes merged)] else [].

(** ** Biocapacity *)

Record bio_row : Type := BioRow {
  bio_src : merged_row;
  biocapacity_gha : num;
  bio_percentage_of_total : num
}.

Definition bio_gha (m : merged_row) : num :=
  nmul (Fin (area_hectares m)) (col biocapacity_conversion_factor m).

Definition process_biocapacity_data (df : list area_row)
    (lookup : list lookup_row) : list bio_row * list log_record :=
  let merged := merge_left (groupby_sum df) lookup in
  let log := warn_missing merged in
  let total_biocapacity := nansum (bio_gha <$> merged) in
  ((fun m => BioRow m (bio_gha m)
               (nmul (ndiv (bio_gha m) total_biocapacity) (Fin (qz 100))))
     <$> merged, log).

(** ** Carbon sequestration *)

Record carbon_row : Type := CarbonRow {
  carbon_src : merged_row;
  total_carbon_tc : num;
  ssc : num;
  carbon_percentage_of_total : num
}.

Definition carbon_tc (m : merged_row) : num :=
  nmul (nadd (nadd (nadd (fillna 0 (col agc_tc_ha m))
                         (fillna 0 (col bgc_tc_ha m)))
                   (fillna 0 (col soc_tc_ha m)))
             (fillna 0 (col deoc_tc_ha m)))
       (Fin (area_hectares m)).

(** The Python test [x != 0] on a double. *)
Definition nonzero (x : num) : bool :=
  match x with Fin q => negb (bool_decide (q = 0%Qc)) | _ => true end.

Definition process_carbon_sequestration (df : list area_row)
    (lookup : list lookup_row) : list carbon_row * list log_record :=
  let merged := merge_left (groupby_sum df) lookup in
  let log := warn_missing merged in
  let total_carbon := nansum (carbon_tc <$> merged) in
  ((fun m => CarbonRow m (carbon_tc m)
               (nmul (carbon_tc m) (Fin (qz 252)))
               (if nonzero total_carbon
                then nmul (ndiv (carbon_tc m) total_carbon) (Fin (qz 100))
                else Fin 0))
     <$> merged, log).

(** [save_results_to_database(results_df, 'carbon')]: the frame handed to
    [to_sql]. *)
Record carbon_stored : Type := CarbonStored {
  cs_solris_code : option Z;
  cs_solris_class : option string;
  cs_area_hectares : Qc;
  cs_agc_tc_ha : num;
  cs_bgc_tc_ha : num;
  cs_soc_tc_ha : num;
  cs_deoc_tc_ha : num;
  cs_total_carbon_tc : num;
  cs_ssc : num;
  cs_percentage_of_total : num;
  cs_ssc_density : num
}.

(** [.replace([inf, -inf], 0)]. *)
Definition replace_inf (x : num) : num :=
  match x with PInf | NInf => Fin 0 | _ => x end.

Definition save_carbon_row (r : carbon_row) : carbon_stored :=
  let m := carbon_src r in
  let area := round_dp 4 (area_hectares m) in
  let ssc_m := nround 4 (ndiv (ssc r) (Fin (qz 1000000))) in
  let density :=
    nround 6 (fillna 0 (replace_inf (ndiv ssc_m (Fin area)))) in
  CarbonStored (col_solris_code m) (col_solris_class m) area
    (col agc_tc_ha m) (col bgc_tc_ha m) (col soc_tc_ha m) (col deoc_tc_ha m)
    (total_carbon_tc r) ssc_m (carbon_percentage_of_total r) density.

Definition save_carbon (results_df : list carbon_row) : list carbon_stored :=
  save_carbon_row <$> results_df.

(** ** Water filtration *)

(** A row of the wetland-value CSV after the rename to
    [solris_class, wf_value_per_ha]; either cell may be empty. *)
Record wf_entry : Type := WfEntry {
  wetland_type : option string;
  wf_value : option Qc
}.

Definition of_cell (c : option Qc) : num :=
  match c with Some q => Fin q | None => NaN end.

(** [merged.merge(wf_df, on="solris_class", how="left")].  pandas puts all
    null keys of both frames in one group, so a null class name on the left
    is matched by a null [wetland_type] on the right. *)
Definition merge_wf (merged : list merged_row) (wf_df : list wf_entry)
  : list (merged_row * num) :=
  merged ≫= (fun m =>
    match filter (fun w => wetland_type w = col_solris_class m) wf_df with
    | [] => [(m, NaN)]
    | ws => (fun w => (m, of_cell (wf_value w))) <$> ws
    end).

Record water_row : Type := WaterRow {
  water_src : merged_row;
  wf_value_per_ha : num;
  total_wf_value : num;
  water_percentage_of_total : num
}.

Definition wf_total (mv : merged_row * num) : num :=
  nround 4 (nmul (Fin (area_hectares mv.1)) (fillna 0 mv.2)).

Definition process_water_filtration (df : list area_row)
    (lookup : list lookup_row) (wf_df : list wf_entry)
  : list water_row * list log_record :=
  let merged := merge_wf (merge_left (groupby_sum df) lookup) wf_df in
  let total_wf := nansum (wf_total <$> merged) in
  ((fun mv => WaterRow mv.1 (fillna 0 mv.2) (wf_total mv)
                (if nonzero total_wf
                 then fillna 0 (nmul (ndiv (wf_total mv) total_wf)
                                     (Fin (qz 100)))
                 else Fin 0))
     <$> merged, []).

(** ** Aesthetic quality *)

(** IEEE [<] on cells. *)
Definition nlt (x y : num) : bool :=
  match x, y with
  | NaN, _ | _, NaN => false
  | Fin a, Fin b => bool_decide (a < b)%Qc
  | NInf, (Fin _ | PInf) => true
  | Fin _, PInf => true
  | _, _ => false
  end.

(** [bins.searchsorted(x, side="left")] on increasing bins: the number of
    edges strictly below [x]. *)
Definition searchsorted_left (bins : list num) (x : num) : nat :=
  length (filter (fun b => nlt b x = true) bins).

(** [pd.cut(x, bins=bins, labels=labels, right=True)] on one cell: null
    when [x] is null or falls outside [(bins[0], bins[-1]]]. *)
Definition cut (bins : list num) (labels : list Z) (x : num) : option Z :=
  let ids := searchsorted_left bins x in
  if isna x || (ids =? length bins)%nat || (ids =? 0)%nat then None
  else labels !! (ids - 1)%nat.

Definition rarity_bins : list num :=
  [NInf; Fin (qz 1); Fin (qz 5); Fin (qz 15); Fin (qz 30); PInf].
Definition rarity_labels : list Z := [5; 4; 3; 2; 1].

Definition naturalness_weight : Qc := dec 67 100.
Definition rarity_weight : Qc := dec 33 100.

Record aesthetic_row : Type := AestheticRow {
  aes_src : merged_row;
  naturalness_score : num;
  aes_percentage_of_total : num;
  rarity_score : Z;
  aesthetic_quality_score : num
}.

(** [merged.dropna(subset=['solris_class'])]. *)
Definition dropna_class (merged : list merged_row) : list merged_row :=
  filter (fun m => col_solris_class m ≠ None) merged.

Definition aes_percentage (total_study_area : num) (m : merged_row) : num :=
  nmul (ndiv (Fin (area_hectares m)) total_study_area) (Fin (qz 100)).

(** One row of the score table; [.astype(int)] raises on a null bin. *)
Definition aesthetic_score_row (total_study_area : num) (m : merged_row)
  : result aesthetic_row :=
  let pct := aes_percentage total_study_area m in
  match cut rarity_bins rarity_labels pct with
  | None => Raise (ValueError "Cannot convert float NaN to integer")
  | Some rarity =>
      Ok (AestheticRow m (col naturalness m) pct rarity
            (nadd (nmul (col naturalness m) (Fin naturalness_weight))
                  (nmul (Fin (qz rarity)) (Fin rarity_weight))))
  end.

Fixpoint collect {A B} (f : A -> result B) (l : list A) : result (list B) :=
  match l with
  | [] => Ok []
  | x :: l' =>
      match f x with
      | Raise e => Raise e
      | Ok y =>
          match collect f l' with
          | Raise e => Raise e
          | Ok ys => Ok (y :: ys)
          end
      end
  end.

Definition aesthetic_merged (df : list area_row) (lookup : list lookup_row)
  : list merged_row :=
  dropna_class (merge_left (groupby_sum df) lookup).

Definition total_study_area (merged : list merged_row) : num :=
  nansum ((fun m => Fin (area_hectares m)) <$> merged).

Definition process_aesthetic_quality (df : list area_row)
    (lookup : list lookup_row) : result (list aesthetic_row) :=
  let merged := aesthetic_merged df lookup in
  collect (aesthetic_score_row (total_study_area merged)) merged.

(** ** Discounted social cost of carbon *)

(** [dict(zip(scc_df['Year'], scc_df['SCC']))]: a later row for the same
    year replaces an earlier one. *)
Definition scc_dict (scc_df : list (Z * Qc)) : gmap Z Qc :=
  foldl (fun m ys => <[ys.1 := ys.2]> m) ∅ scc_df.

(** Python's [max] on a list. *)
Definition py_max (l : list Z) : result Z :=
  match l with
  | [] => Raise (ValueError "max() arg is an empty sequence")
  | y :: l' => Ok (foldl Z.max y l')
  end.

(** The price the loop body picks for one year. *)
Definition annual_scc_value (scc_by_year : gmap Z Qc) (year : Z)
  : result Qc :=
  match scc_by_year !! year with
  | Some v => Ok v
  | None =>
      match py_max (filter (fun y => y <= year)
                           (map_to_list scc_by_year).*1) with
      | Raise e => Raise e
      | Ok last_year =>
          match scc_by_year !! last_year with
          | Some v => Ok v
          | None => Raise (ValueError "KeyError")
          end
      end
  end.

Definition reference_scc : Qc := qz 252.

Definition discounted_value (scaling_factor : Qc) (discount_rate : Qc)
    (start_year year : Z) (annual : Qc) : num :=
  ndiv (Fin (scaling_factor * annual))
       (Fin ((1 + discount_rate) ^ Z.to_nat (year - start_year)))%Qc.

(** The series [discounted_ssc] that [plot_discounted_social_cost] hands
    to the plot, for [years = range(start_year, end_year + 1)]. *)
Definition plot_discounted_social_cost (total_ssc_millions : Qc)
    (scc_df : list (Z * Qc)) (start_year end_year : Z) (discount_rate : Qc)
  : result (list num) :=
  let scc_by_year := scc_dict scc_df in
  let scaling_factor := (total_ssc_millions / reference_scc)%Qc in
  let years := seqZ start_year (end_year + 1 - start_year) in
  collect (fun year =>
             match annual_scc_value scc_by_year year with
             | Raise e => Raise e
             | Ok annual =>
                 Ok (discounted_value scaling_factor discount_rate
                       start_year year annual)
             end) years.

(** ** Reference table loader *)

(** A row of the lookup CSV as read: any cell may be empty. *)
Record csv_row : Type := CsvRow {
  csv_solris_code : option Z;
  csv_solris_class : option string;
  csv_biocapacity_category : option string;
  csv_biocapacity_conversion_factor : option Qc;
  csv_lulc_category : option string;
  csv_agc_tc_ha : option Qc;
  csv_bgc_tc_ha : option Qc;
  csv_soc_tc_ha : option Qc;
  csv_deoc_tc_ha : option Qc;
  csv_naturalness : option Qc;
  csv_description : option string
}.

Record csv_frame : Type := CsvFrame {
  csv_columns : list string;
  csv_rows : list csv_row
}.

Definition required_columns : list string :=
  ["solris_code"; "solris_class"; "biocapacity_category";
   "biocapacity_conversion_factor"; "lulc_category"; "agc_tc_ha";
   "bgc_tc_ha"; "soc_tc_ha"; "deoc_tc_ha"; "naturalness"; "description"]%string.

Definition missing_columns (columns : list string) : list string :=
  filter (fun c => c ∉ columns) required_columns.

Definition set_conversion_factor (v : option Qc) (r : csv_row) : csv_row :=
  CsvRow (csv_solris_code r) (csv_solris_class r)
    (csv_biocapacity_category r) v (csv_lulc_category r)
    (csv_agc_tc_ha r) (csv_bgc_tc_ha r) (csv_soc_tc_ha r)
    (csv_deoc_tc_ha r) (csv_naturalness r) (csv_description r).

(** One turn of the loop over [custom_factors.items()]:
    [mask = df['solris_code'] == code] and the assignment through
    [df.loc], made only when the key is in [factors]. *)
Definition apply_custom_factor (df : list csv_row)
    (item : Z * gmap string (option Qc)) : list csv_row :=
  match item.2 !! "biocapacity_conversion_factor"%string with
  | Some v =>
      (fun r => if decide (csv_solris_code r = Some item.1)
                then set_conversion_factor v r else r) <$> df
  | None => df
  end.

(** The override map is a Python dict; its items are taken in insertion
    order. *)
Definition apply_custom_factors
    (custom_factors : list (Z * gmap string (option Qc)))
    (df : list csv_row) : list csv_row :=
  foldl apply_custom_factor df custom_factors.

(** [df.dropna()]: a row survives when none of its cells is empty. *)
Definition complete_row (r : csv_row) : option lookup_row :=
  code ← csv_solris_code r;
  class ← csv_solris_class r;
  cat ← csv_biocapacity_category r;
  factor ← csv_biocapacity_conversion_factor r;
  lulc ← csv_lulc_category r;
  agc ← csv_agc_tc_ha r;
  bgc ← csv_bgc_tc_ha r;
  soc ← csv_soc_tc_ha r;
  deoc ← csv_deoc_tc_ha r;
  nat ← csv_naturalness r;
  desc ← csv_description r;
  Some (LookupRow code class cat factor lulc agc bgc soc deoc nat desc).

Definition dropna (df : list csv_row) : list lookup_row :=
  omap complete_row df.

(** ** The store

    One reference table and four result tables, as PostgreSQL holds them.
    A table is absent ([None]) or holds rows. *)

Record result_row : Type := ResultRow {
  rr_solris_code : option Z;
  rr_area_hectares : num;
  rr_metrics : list num
}.

Record database : Type := Database {
  solris_lookup : option (list lookup_row);
  tbl_biocapacity : option (list result_row);
  tbl_carbon_sequestration : option (list result_row);
  tbl_water_filtration : option (list result_row);
  tbl_aesthetic_quality : option (list result_row)
}.

Definition result_tables : list result_table :=
  [biocapacity_results; carbon_sequestration_results;
   water_filtration_results; aesthetic_quality_results].

Definition table_name (t : result_table) : string :=
  match t with
  | biocapacity_results => "biocapacity_results"
  | carbon_sequestration_results => "carbon_sequestration_results"
  | water_filtration_results => "water_filtration_results"
  | aesthetic_quality_results => "aesthetic_quality_results"
  end.

Definition rows_of (t : result_table) (d : database)
  : option (list result_row) :=
  match t with
  | biocapacity_results => tbl_biocapacity d
  | carbon_sequestration_results => tbl_carbon_sequestration d
  | water_filtration_results => tbl_water_filtration d
  | aesthetic_quality_results => tbl_aesthetic_quality d
  end.

Definition set_rows (t : result_table) (v : option (list result_row))
    (d : database) : database :=
  match t with
  | biocapacity_results =>
      Database (solris_lookup d) v (tbl_carbon_sequestration d)
        (tbl_water_filtration d) (tbl_aesthetic_quality d)
  | carbon_sequestration_results =>
      Database (solris_lookup d) (tbl_biocapacity d) v
        (tbl_water_filtration d) (tbl_aesthetic_quality d)
  | water_filtration_results =>
      Database (solris_lookup d) (tbl_biocapacity d)
        (tbl_carbon_sequestration d) v (tbl_aesthetic_quality d)
  | aesthetic_quality_results =>
      Database (solris_lookup d) (tbl_biocapacity d)
        (tbl_carbon_sequestration d) (tbl_water_filtration d) v
  end.

Definition set_lookup (v : option (list lookup_row)) (d : database)
  : database :=
  Database v (tbl_biocapacity d) (tbl_carbon_sequestration d)
    (tbl_water_filtration d) (tbl_aesthetic_quality d).

(** Some row of result table [t] carries a code that is a key of the
    reference table. *)
Definition references (codes : list Z) (t : result_table) (d : database)
  : bool :=
  match rows_of t d with
  | None => false
  | Some rows =>
      existsb (fun r => match rr_solris_code r with
                        | Some c => bool_decide (c ∈ codes)
                        | None => false
                        end) rows
  end.

(** *** Column types of [solris_lookup] (lines 44-58) *)

(** PostgreSQL rounds a [numeric] to the scale of its column with ties
    away from zero. *)
Definition round_half_away (q : Qc) : Z :=
  let n := Qnum q in
  let d := Zpos (Qden q) in
  Z.sgn n * ((2 * Z.abs n + d) / (2 * d)).

(** Assignment to a [DECIMAL(p,s)] column: the value is rounded to [s]
    decimals and is refused unless the result is below [10^(p-s)] in
    absolute value. *)
Definition decimal (p s : nat) (q : Qc) : option Qc :=
  let scaled := round_half_away (q * qz (10 ^ Z.of_nat s)) in
  if decide (Z.abs scaled < 10 ^ Z.of_nat p)
  then Some (qz scaled / qz (10 ^ Z.of_nat s))%Qc
  else None.

(** Assignment to an [INTEGER] column. *)
Definition integer (n : Z) : option Z :=
  if decide (- 2 ^ 31 <= n < 2 ^ 31) then Some n else None.

(** The numeric columns of a row as [solris_lookup] stores them. *)
Definition decimal_columns (r : lookup_row) : option lookup_row :=
  factor ← decimal 4 2 (biocapacity_conversion_factor r);
  agc ← decimal 8 4 (agc_tc_ha r);
  bgc ← decimal 8 4 (bgc_tc_ha r);
  soc ← decimal 8 4 (soc_tc_ha r);
  deoc ← decimal 8 4 (deoc_tc_ha r);
  nat ← decimal 4 2 (naturalness r);
  Some (LookupRow (solris_code r) (solris_class r) (biocapacity_category r)
          factor (lulc_category r) agc bgc soc deoc nat (description r)).

Definition store_lookup_row (r : lookup_row) : sql_error + lookup_row :=
  match integer (solris_code r) with
  | None => inl (NumericValueOutOfRange "integer out of range")
  | Some _ =>
      match decimal_columns r with
      | None => inl (NumericValueOutOfRange "numeric field overflow")
      | Some r' => inr r'
      end
  end.

(** The rows of one INSERT, in row order; the first row that does not fit
    its columns fails the statement. *)
Fixpoint store_lookup_rows (rows : list lookup_row)
  : sql_error + list lookup_row :=
  match rows with
  | [] => inr []
  | r :: rows' =>
      match store_lookup_row r with
      | inl e => inl e
      | inr r' =>
          match store_lookup_rows rows' with
          | inl e => inl e
          | inr stored => inr (r' :: stored)
          end
      end
  end.

(** *** Statements *)

Inductive stmt : Type :=
  | DELETE_FROM_solris_lookup
  | TRUNCATE_TABLE (t : result_table)
  | INSERT_INTO_solris_lookup (rows : list lookup_row).

(** One statement on the tables a transaction sees.  [constrained] lists
    the result tables whose [solris_code] column carries the foreign key
    declared by [create_database_schema]; a result table that
    [DataFrame.to_sql] re-created after a [DROP TABLE] carries none and
    never blocks the DELETE.  The reference table is the one declared on
    lines 44-58, with its primary key and DECIMAL columns: the rows of an
    INSERT are stored rounded to the scale of their columns and are
    refused when a value does not fit or a code is repeated.  On a
    missing reference table [to_sql] creates the table from the frame as
    it is; the loader never gets there, because the DELETE it sends first
    fails on a missing table.  When several rows of one INSERT are at
    fault, the order in which PostgreSQL finds them is not modelled
    beyond: column fit before the key. *)
Definition execute (constrained : list result_table) (s : stmt)
    (d : database) : sql_error + database :=
  match s with
  | DELETE_FROM_solris_lookup =>
      match solris_lookup d with
      | None => inl (UndefinedTable "solris_lookup")
      | Some ls =>
          match filter (fun t => references (solris_code <$> ls) t d = true)
                       constrained with
          | t :: _ => inl (ForeignKeyViolation t)
          | [] => inr (set_lookup (Some []) d)
          end
      end
  | TRUNCATE_TABLE t =>
      match rows_of t d with
      | None => inl (UndefinedTable (table_name t))
      | Some _ => inr (set_rows t (Some []) d)
      end
  | INSERT_INTO_solris_lookup rows =>
      match solris_lookup d with
      | None => inr (set_lookup (Some rows) d)
      | Some ls =>
          match store_lookup_rows rows with
          | inl e => inl e
          | inr stored =>
              if decide (NoDup (solris_code <$> (ls ++ stored)))
              then inr (set_lookup (Some (ls ++ stored)) d)
              else inl (UniqueViolation "solris_lookup_pkey")
          end
      end
  end.

(** The text of a failure, identifiers unquoted. *)
Definition sql_message (e : sql_error) : string :=
  match e with
  | ForeignKeyViolation t =>
      "update or delete on table solris_lookup violates foreign key constraint "
      +:+ table_name t +:+ "_solris_code_fkey on table " +:+ table_name t
      +:+ " DETAIL:  Key (solris_code) is still referenced from table "
      +:+ table_name t
  | UndefinedTable name => "relation " +:+ name +:+ " does not exist"
  | UniqueViolation c =>
      "duplicate key value violates unique constraint " +:+ c
  | NumericValueOutOfRange msg => msg
  | InFailedSqlTransaction =>
      "current transaction is aborted, commands ignored until end of transaction block"
  end.

Definition str (e : exn) : string :=
  match e with
  | ValueError msg => msg
  | DBAPIError e => sql_message e
  end.

Definition lower_ascii (c : ascii) : ascii :=
  let n := nat_of_ascii c in
  if (65 <=? n)%nat && (n <=? 90)%nat then ascii_of_nat (n + 32) else c.

Fixpoint lower (s : string) : string :=
  match s with
  | EmptyString => EmptyString
  | String c s' => String (lower_ascii c) (lower s')
  end.

(** Python's [needle in hay]. *)
Definition contains (needle hay : string) : bool :=
  match String.index 0 needle hay with Some _ => true | None => false end.

(** The test on line 207. *)
Definition is_fk_message (error_msg : string) : bool :=
  contains "violates foreign key constraint" (lower error_msg)
  || contains "still referenced" (lower error_msg)
  || contains "depends on" (lower error_msg).

(** *** Connections

    A connection begins a transaction with its first statement.  The
    statements of a transaction work on a view of their own, which
    [commit] makes the committed tables.  A statement that fails aborts
    the transaction: PostgreSQL then rejects every further statement on
    that connection until the transaction is ended, and ending an aborted
    transaction, by [commit] as by [rollback], discards it.  The source
    never rolls back on its own; closing the connection does. *)

Inductive transaction : Type :=
  | Idle
  | Open (work : database)
  | Aborted.

(** The state the loader runs in: the committed tables, the result tables
    that carry the foreign key, the transaction of the connection in use,
    and the statements sent so far. *)
Record conn : Type := Conn {
  store : database;
  constrained : list result_table;
  txn : transaction;
  executed : list stmt
}.

Definition M (A : Type) : Type := conn -> result A * conn.

Definition ret {A} (a : A) : M A := fun c => (Ok a, c).
Definition raise {A} (e : exn) : M A := fun c => (Raise e, c).
Definition bind {A B} (m : M A) (k : A -> M B) : M B :=
  fun c => match m c with
           | (Ok a, c') => k a c'
           | (Raise e, c') => (Raise e, c')
           end.
Definition try_except {A} (m : M A) (handler : exn -> M A) : M A :=
  fun c => match m c with
           | (Ok a, c') => (Ok a, c')
           | (Raise e, c') => handler e c'
           end.

Notation "m ;;; k" := (bind m (fun _ => k))
  (at level 100, right associativity).

(** The tables the next statement of the connection sees. *)
Definition view (c : conn) : database :=
  match txn c with
  | Open work => work
  | Idle | Aborted => store c
  end.

(** [conn.execute(text(...))]. *)
Definition conn_execute (s : stmt) : M unit :=
  fun c =>
    let sent := executed c ++ [s] in
    match txn c with
    | Aborted =>
        (Raise (DBAPIError InFailedSqlTransaction),
         Conn (store c) (constrained c) Aborted sent)
    | Idle | Open _ =>
        match execute (constrained c) s (view c) with
        | inr d => (Ok tt, Conn (store c) (constrained c) (Open d) sent)
        | inl e =>
            (Raise (DBAPIError e), Conn (store c) (constrained c) Aborted sent)
        end
    end.

(** [conn.commit()]: an open transaction is committed, an aborted one is
    ended without effect. *)
Definition conn_commit : M unit :=
  fun c => (Ok tt, Conn (view c) (constrained c) Idle (executed c)).

(** [with self.engine.connect() as conn]: the block gets a connection with
    no transaction, and leaving the block, normally or by an exception,
    closes the connection, which drops what was not committed. *)
Definition with_connection {A} (body : M A) : M A :=
  fun c =>
    match body (Conn (store c) (constrained c) Idle (executed c)) with
    | (r, c') => (r, Conn (store c') (constrained c') Idle (executed c'))
    end.

Fixpoint for_each {A} (l : list A) (body : A -> M unit) : M unit :=
  match l with
  | [] => ret tt
  | x :: l' => body x ;;; for_each l' body
  end.

Definition tables_to_clear : list result_table :=
  [biocapacity_results; carbon_sequestration_results;
   water_filtration_results; aesthetic_quality_results].

(** Lines 199-230. *)
Definition clear_solris_lookup : M unit :=
  with_connection
    (try_except
       (conn_execute DELETE_FROM_solris_lookup ;;;
        conn_commit)
       (fun e =>
          if is_fk_message (str e) then
            for_each tables_to_clear
              (fun table =>
                 try_except (conn_execute (TRUNCATE_TABLE table))
                   (fun truncate_error => ret tt)) ;;;
            conn_commit ;;;
            conn_execute DELETE_FROM_solris_lookup ;;;
            conn_commit
          else raise e)).

(** [df.to_sql('solris_lookup', self.engine, if_exists='append',
    index=False)]: pandas takes a connection of its own from the engine
    and inserts the frame in one transaction. *)
Definition to_sql_solris_lookup (df : list lookup_row) : M unit :=
  with_connection
    (conn_execute (INSERT_INTO_solris_lookup df) ;;;
     conn_commit).

Definition load_solris_lookup_table (csv : csv_frame)
    (custom_factors : list (Z * gmap string (option Qc)))
  : M (list lookup_row) :=
  match missing_columns (csv_columns csv) with
  | _ :: _ => raise (ValueError "Missing required columns in CSV")
  | [] =>
      let df := dropna (apply_custom_factors custom_factors (csv_rows csv)) in
      clear_solris_lookup ;;;
      to_sql_solris_lookup df ;;;
      ret df
  end.

(** ** Percentages on doubles

    Lines 272-278 of [process_biocapacity_data] on binary64 floats, for
    the one question that is about rounding error: how far the computed
    percentages are from summing to 100. *)

Module Doubles.
Import PrimFloat.


(** Line 274, on the columns [area_hectares] and
    [biocapacity_conversion_factor] of one row. *)
Definition biocapacity_gha (row : float * float) : float :=
  mul row.1 row.2.








End Doubles.

(** * Vocabulary of the statements *)

Definition finite_or_na (x : num) : Prop :=
  match x with Fin _ | NaN => True | PInf | NInf => False end.

Definition is_finite (x : num) : Prop :=
  match x with Fin _ => True | _ => False end.

(** The sum of the finite cells of a column. *)
Definition fin_total (xs : list num) : Qc :=
  foldr (fun x acc => match x with Fin q => (q + acc)%Qc | _ => acc end)
        0%Qc xs.

(** [x / t * 100] for one cell and a finite non-zero total. *)
Definition share (t : num) (x : num) : num :=
  nmul (ndiv x t) (Fin (qz 100)).

(** The binning rule in the words of the specification. *)
Definition rarity_of (p : Qc) : Z :=
  if decide (p <= qz 1)%Qc then 5
  else if decide (p <= qz 5)%Qc then 4
  else if decide (p <= qz 15)%Qc then 3
  else if decide (p <= qz 30)%Qc then 2
  else 1.

(** A carbon-stock component of a merged row with the null filled by 0. *)
Definition component (f : lookup_row -> Qc) (m : merged_row) : Qc :=
  match m_lookup m with Some l => f l | None => 0%Qc end.

(** The schedule year whose price is used for [year]: the latest one at or
    before it. *)
Definition latest_at_or_before (scc_by_year : gmap Z Qc) (year y : Z)
  : Prop :=
  is_Some (scc_by_year !! y) /\ y <= year
  /\ forall y', is_Some (scc_by_year !! y') -> y' <= year -> y' <= y.

(** [r'] is [r] with at most the conversion factor changed. *)
Definition same_but_factor (r r' : csv_row) : Prop :=
  r' = set_conversion_factor (csv_biocapacity_conversion_factor r') r.

(** Dependent result rows exist: some row of a result table that carries
    the foreign key points at a key of the reference table. *)
Definition blocked (c : conn) : Prop :=
  exists old t, solris_lookup (store c) = Some old /\ t ∈ constrained c
                /\ references (solris_code <$> old) t (store c) = true.

(** The body of the loop on lines 216-221. *)
Definition truncate_or_skip (table : result_table) : M unit :=
  try_except (conn_execute (TRUNCATE_TABLE table))
    (fun truncate_error => ret tt).

(** The state a call leaves behind: tables [d], no open transaction, and
    [sent] added to the statements sent. *)
Definition leaves (c : conn) (d : database) (sent : list stmt) : conn :=
  Conn d (constrained c) Idle (executed c ++ sent).

(** The share of [area] in [total], in percent. *)
Definition percent_of (total area : Qc) : Qc := (area / total * qz 100)%Qc.

(** ** Sample data *)

Definition forest : lookup_row :=
  LookupRow 1 "Forest" "forest land" (dec 126 100) "Forest"
    (qz 600) (qz 150) (qz 200) (qz 50) (qz 8) "Deciduous forest".
Definition marsh : lookup_row :=
  LookupRow 2 "Marsh" "inland water" (dec 37 100) "Wetland"
    (qz 10) (qz 5) (qz 300) (qz 2) (qz 9) "Open marsh".

Definition sample_lookup : list lookup_row := [forest; marsh].

(** Codes 1 and 2 are known, code 7 is not; code 2 comes in two rows, and
    one row has no code. *)
Definition sample_df : list area_row :=
  [AreaRow (Some 2) (Some (qz 3)); AreaRow (Some 1) (Some (dec 200004 100000));
   AreaRow (Some 7) (Some (qz 6)); AreaRow None (Some (qz 6));
   AreaRow (Some 2) (Some (dec 5 10))].

Definition sample_wf : list wf_entry :=
  [WfEntry (Some "Marsh") (Some (qz 100)); WfEntry (Some "Bog") None].

(** A wetland-value table with a row whose type name is empty. *)
Definition unnamed_wf : list wf_entry :=
  [WfEntry (Some "Marsh") (Some (qz 100)); WfEntry None (Some (qz 7))].

Definition sample_scc : list (Z * Qc) :=
  [(2020, qz 252); (2022, qz 260); (2025, qz 271)].

Definition late_scc : list (Z * Qc) := [(2021, qz 252); (2022, qz 260)].

Definition sample_csv : csv_frame :=
  CsvFrame required_columns
    [CsvRow (Some 1) (Some "Forest") (Some "forest land") (Some (dec 126 100))
       (Some "Forest") (Some (qz 600)) (Some (qz 150)) (Some (qz 200))
       (Some (qz 50)) (Some (qz 8)) (Some "Deciduous forest");
     CsvRow (Some 2) (Some "Marsh") (Some "inland water") (Some (dec 37 100))
       (Some "Wetland") (Some (qz 10)) (Some (qz 5)) (Some (qz 300))
       (Some (qz 2)) (Some (qz 9)) (Some "Open marsh");
     CsvRow (Some 3) (Some "Pasture") None (Some (dec 5 10))
       (Some "Agriculture") (Some (qz 1)) (Some (qz 1)) (Some (qz 90))
       None (Some (qz 3)) (Some "Pasture")].

Definition sample_custom_factors : list (Z * gmap string (option Qc)) :=
  [(2, {[ "biocapacity_conversion_factor"%string := Some (dec 6 10);
          "naturalness"%string := Some (qz 1) ]});
   (33, {[ "biocapacity_conversion_factor"%string := Some (dec 6 10) ]})].

(** A store in which biocapacity rows still point at the reference table,
    the carbon table is absent and the water table is empty. *)
Definition sample_store : database :=
  Database (Some sample_lookup)
    (Some [ResultRow (Some 1) (Fin (qz 2)) [Fin (dec 252 100)]])
    None (Some [])
    (Some [ResultRow None (Fin (qz 6)) []]).

(** The tables are those of [create_database_schema]: each result table
    carries the foreign key. *)
Definition sample_conn : conn := Conn sample_store result_tables Idle [].

(** * More of the program *)

(** ** Schema, and dropping of tables *)

(** [CREATE TABLE IF NOT EXISTS], for the reference table and for a result
    table. *)
Definition create_lookup_if_not_exists (d : database) : database :=
  match solris_lookup d with
  | Some _ => d
  | None => set_lookup (Some []) d
  end.

Definition create_results_if_not_exists (t : result_table) (d : database)
  : database :=
  match rows_of t d with
  | Some _ => d
  | None => set_rows t (Some []) d
  end.

(** [create_database_schema]: the reference table first, then the four
    result tables in the order of the source. *)
Definition create_database_schema (d : database) : database :=
  foldl (fun d t => create_results_if_not_exists t d)
        (create_lookup_if_not_exists d)
        [biocapacity_results; carbon_sequestration_results;
         water_filtration_results; aesthetic_quality_results].

(** Failures of [DROP TABLE]. *)
Inductive ddl_error : Type :=
  | NoSuchTable (name : string)
  | DependentObjects (child : result_table).

Definition drop_results (t : result_table) (d : database)
  : ddl_error + database :=
  match rows_of t d with
  | None => inl (NoSuchTable (table_name t))
  | Some _ => inr (set_rows t None d)
  end.

(** The reference table cannot be dropped while a result table, whose
    foreign key depends on it, exists. *)
Definition drop_solris_lookup (d : database) : ddl_error + database :=
  match solris_lookup d with
  | None => inl (NoSuchTable "solris_lookup")
  | Some _ =>
      match filter (fun t => is_Some (rows_of t d)) result_tables with
      | t :: _ => inl (DependentObjects t)
      | [] => inr (set_lookup None d)
      end
  end.

(** What [clear_results_for_mode] raises: [ValueError] for a mode that is
    not a key of [table_map], or the failure of the [DROP TABLE]. *)
Inductive clear_exn : Type :=
  | UnknownMode (mode : string)
  | DropFailed (e : ddl_error).

Definition table_map : gmap string result_table :=
  list_to_map
    [("biocapacity", biocapacity_results);
     ("carbon", carbon_sequestration_results);
     ("carbon_sequestration", carbon_sequestration_results);
     ("water", water_filtration_results);
     ("water_filtration", water_filtration_results);
     ("aesthetic_quality", aesthetic_quality_results)]%string.

Definition clear_results_for_mode (mode : string) (d : database)
  : clear_exn + database :=
  match table_map !! mode with
  | None => inl (UnknownMode mode)
  | Some table_name =>
      match drop_results table_name d with
      | inl e => inl (DropFailed e)
      | inr d' => inr d'
      end
  end.

(** [clear_all_data]: the four result tables, then the reference table;
    the first statement that fails ends it. *)
Definition and_then {E A B} (x : E + A) (k : A -> E + B) : E + B :=
  match x with
  | inl e => inl e
  | inr a => k a
  end.

Definition clear_all_data (d : database) : ddl_error + database :=
  and_then (drop_results aesthetic_quality_results d) (fun d1 =>
  and_then (drop_results carbon_sequestration_results d1) (fun d2 =>
  and_then (drop_results water_filtration_results d2) (fun d3 =>
  and_then (drop_results biocapacity_results d3) (fun d4 =>
  drop_solris_lookup d4)))).




(** The modes [main] passes to [clear_results_for_mode]. *)
Definition main_modes : list string :=
  ["biocapacity"; "carbon_sequestration"; "water_filtration";
   "aesthetic_quality"]%string.

(** ** Vocabulary of the further statements *)

(** The store with no table at all. *)
Definition no_tables : database := Database None None None None None.

Definition all_tables_exist (d : database) : Prop :=
  is_Some (solris_lookup d)
  /\ forall t, is_Some (rows_of t d).

(** The keys of [table_map]. *)
Definition known_modes : list string :=
  ["biocapacity"; "carbon"; "carbon_sequestration"; "water";
   "water_filtration"; "aesthetic_quality"]%string.

(** The conversion factor an override map gives to a row: that of the
    entry for the row's code, when the entry has the key. *)
Definition patched_factor (custom_factors : list (Z * gmap string (option Qc)))
    (r : csv_row) : option Qc :=
  match csv_solris_code r with
  | None => csv_biocapacity_conversion_factor r
  | Some c =>
      match (list_to_map custom_factors : gmap Z (gmap string (option Qc)))
              !! c with
      | None => csv_biocapacity_conversion_factor r
      | Some factors =>
          default (csv_biocapacity_conversion_factor r)
            (factors !! "biocapacity_conversion_factor"%string)
      end
  end.

(** The area the sheet gives to code [k]: the sum over its rows of that
    code, an empty cell counting for 0. *)
Definition area_of (k : Z) (df : list area_row) : Qc :=
  foldr (fun r acc =>
           if decide (gridcode r = Some k)
           then (default 0%Qc (SUM_Area_Ha r) + acc)%Qc else acc)
        0%Qc df.

(** The total of the entries of key [k] in an aggregate. *)
Definition area_in (k : Z) (acc : list (Z * Qc)) : Qc :=
  foldr (fun ka s => if decide (ka.1 = k) then (ka.2 + s)%Qc else s)
        0%Qc acc.

(** A cell that is null or a number that is not negative. *)
Definition nonneg_or_na (x : num) : Prop :=
  match x with
  | Fin q => (0 <= q)%Qc
  | NaN => True
  | PInf | NInf => False
  end.

(** * Properties *)

(** ** Tactics *)

Ltac qc_eq := apply Qc_is_canon; vm_compute; reflexivity.

(** Order goals on [Qc] with literal bounds, sent to [lra] on [Q]. *)
Ltac qc_order :=
  repeat match goal with
         | H : bool_decide _ ≠ true |- _ => rewrite bool_decide_eq_true in H
         | H : ¬ (_ < _)%Qc |- _ => apply Qcnot_lt_le in H
         | H : ¬ (_ <= _)%Qc |- _ => apply Qcnot_le_lt in H
         | H : bool_decide _ = true |- _ => apply bool_decide_eq_true in H
         | H : bool_decide _ = false |- _ => apply bool_decide_eq_false in H
         end;
  unfold Qclt, Qcle, qz, dec in *; cbn [this Q2Qc] in *;
  repeat match goal with
         | H : context [Qred ?q] |- _ =>
             let r := eval vm_compute in (Qred q) in
             change (Qred q) with r in H
         | |- context [Qred ?q] =>
             let r := eval vm_compute in (Qred q) in
             change (Qred q) with r
         end;
  lra.

Ltac qc_neq :=
  let H := fresh in
  intros H; apply (f_equal this) in H; vm_compute in H; discriminate H.

Ltac by_decide := apply (bool_decide_unpack _); vm_compute; exact I.

Ltac num_eq :=
  vm_compute;
  first [reflexivity | f_equal; apply Qc_is_canon; vm_compute; reflexivity].

Ltac num_neq :=
  let H := fresh in
  intros H; vm_compute in H; discriminate H.

(** ** Rounding *)

Example round_dp_ex1 : round_dp 4 (dec 123456 100000) = dec 12346 10000.
Proof. apply Qc_is_canon. vm_compute. reflexivity. Qed.
Example round_dp_ex2 : round_dp 2 (dec 125 1000) = dec 12 100.
Proof. apply Qc_is_canon. vm_compute. reflexivity. Qed.
Example round_dp_ex3 : round_dp 2 (dec 375 1000) = dec 38 100.
Proof. apply Qc_is_canon. vm_compute. reflexivity. Qed.

(** ** Cells and sums *)

Lemma nansum_fin_total xs :
  Forall finite_or_na xs -> nansum xs = Fin (fin_total xs).
Proof.
  induction 1 as [|x xs Hx _ IH]; [reflexivity|].
  unfold nansum in *. cbn [foldr fin_total]. rewrite IH.
  destruct x; cbn; try reflexivity; contradiction.
Qed.

Lemma is_finite_finite_or_na x : is_finite x -> finite_or_na x.
Proof. destruct x; cbn; tauto. Qed.

Lemma share_fin (t q : Qc) :
  t <> 0%Qc -> share (Fin t) (Fin q) = Fin (q / t * qz 100).
Proof.
  intros Ht. unfold share. cbn [ndiv].
  destruct (decide (t = 0%Qc)); [contradiction|reflexivity].
Qed.




Lemma fin_total_cons_fin q xs :
  fin_total (Fin q :: xs) = (q + fin_total xs)%Qc.
Proof. reflexivity. Qed.





Lemma nonzero_fin q : nonzero (Fin q) = true <-> q <> 0%Qc.
Proof.
  cbn. rewrite negb_true_iff, bool_decide_eq_false. reflexivity.
Qed.

(** ** Shape of the computed columns *)

Lemma bio_gha_finite_or_na m : finite_or_na (bio_gha m).
Proof. unfold bio_gha, col. destruct (m_lookup m); exact I. Qed.

Lemma carbon_tc_finite m : is_finite (carbon_tc m).
Proof. unfold carbon_tc, col. destruct (m_lookup m); exact I. Qed.



Lemma bio_rows_gha df lookup :
  biocapacity_gha <$> (process_biocapacity_data df lookup).1
  = bio_gha <$> merge_left (groupby_sum df) lookup.
Proof.
  unfold process_biocapacity_data. cbn [fst].
  rewrite <- list_fmap_compose. reflexivity.
Qed.

Lemma carbon_rows_tc df lookup :
  total_carbon_tc <$> (process_carbon_sequestration df lookup).1
  = carbon_tc <$> merge_left (groupby_sum df) lookup.
Proof.
  unfold process_carbon_sequestration. cbn [fst].
  rewrite <- list_fmap_compose. reflexivity.
Qed.






(** ** Rarity bins *)

Lemma nlt_fin a b : nlt (Fin a) (Fin b) = true <-> (a < b)%Qc.
Proof. cbn. apply bool_decide_eq_true. Qed.

Lemma cut_rarity_fin p :
  cut rarity_bins rarity_labels (Fin p) = Some (rarity_of p).
Proof.
  unfold cut, searchsorted_left, rarity_bins, rarity_of.
  rewrite !filter_cons, filter_nil. cbn [nlt isna orb].
  repeat case_decide; cbn; try reflexivity; try discriminate;
    exfalso; qc_order.
Qed.

Lemma rarity_of_thresholds p :
  ((p <= qz 1)%Qc -> rarity_of p = 5)
  /\ ((qz 1 < p)%Qc -> (p <= qz 5)%Qc -> rarity_of p = 4)
  /\ ((qz 5 < p)%Qc -> (p <= qz 15)%Qc -> rarity_of p = 3)
  /\ ((qz 15 < p)%Qc -> (p <= qz 30)%Qc -> rarity_of p = 2)
  /\ ((qz 30 < p)%Qc -> rarity_of p = 1).
Proof.
  unfold rarity_of.
  repeat split; intros; repeat case_decide; try reflexivity;
    exfalso; qc_order.
Qed.

Lemma cut_rarity_pinf : cut rarity_bins rarity_labels PInf = Some 1.
Proof. reflexivity. Qed.

Lemma cut_rarity_ninf : cut rarity_bins rarity_labels NInf = None.
Proof. reflexivity. Qed.

Lemma cut_rarity_nan : cut rarity_bins rarity_labels NaN = None.
Proof. reflexivity. Qed.

(** ** [collect]: the first failing element aborts the loop *)

Lemma collect_Ok {A B} (f : A -> result B) l ys :
  collect f l = Ok ys -> Forall2 (fun x y => f x = Ok y) l ys.
Proof.
  revert ys. induction l as [|x l IH]; intros ys; cbn.
  - intros [= <-]. constructor.
  - destruct (f x) as [y|e] eqn:Hx; [|discriminate].
    destruct (collect f l) as [ys'|e]; [|discriminate].
    intros [= <-]. constructor; [exact Hx|apply IH; reflexivity].
Qed.

Lemma collect_total {A B} (f : A -> result B) l :
  Forall (fun x => exists y, f x = Ok y) l -> exists ys, collect f l = Ok ys.
Proof.
  induction 1 as [|x l [y Hy] _ [ys IH]]; cbn.
  - eexists; reflexivity.
  - rewrite Hy, IH. eexists; reflexivity.
Qed.

Lemma collect_Raise {A B} (f : A -> result B) l x e :
  x ∈ l -> f x = Raise e -> exists e', collect f l = Raise e'.
Proof.
  intros Hin Hx. induction Hin as [x l|x y l _ IH]; cbn.
  - rewrite Hx. eexists; reflexivity.
  - destruct (f y); [|eexists; reflexivity].
    destruct (IH Hx) as [e' ->]. eexists; reflexivity.
Qed.

(** ** Aesthetic quality *)

Lemma aesthetic_score_row_Ok t m r :
  aesthetic_score_row t m = Ok r ->
  aes_src r = m
  /\ aes_percentage_of_total r = aes_percentage t m
  /\ cut rarity_bins rarity_labels (aes_percentage t m) = Some (rarity_score r)
  /\ naturalness_score r = col naturalness m
  /\ aesthetic_quality_score r
     = nadd (nmul (col naturalness m) (Fin naturalness_weight))
            (nmul (Fin (qz (rarity_score r))) (Fin rarity_weight)).
Proof.
  unfold aesthetic_score_row.
  destruct (cut rarity_bins rarity_labels (aes_percentage t m)) as [k|];
    [|discriminate].
  intros [= <-]. cbn. repeat split; reflexivity.
Qed.

Lemma aesthetic_rows_src t merged rows :
  collect (aesthetic_score_row t) merged = Ok rows ->
  aes_src <$> rows = merged.
Proof.
  intros H. apply collect_Ok in H.
  induction H as [|m r merged rows Hr _ IH]; [reflexivity|].
  rewrite fmap_cons, IH.
  apply aesthetic_score_row_Ok in Hr as (-> & _). reflexivity.
Qed.

Lemma aesthetic_merged_matched df lookup m :
  m ∈ aesthetic_merged df lookup -> exists l, m_lookup m = Some l.
Proof.
  unfold aesthetic_merged, dropna_class. rewrite list_elem_of_filter.
  intros [Hm _]. unfold col_solris_class in Hm.
  destruct (m_lookup m) as [l|]; [eauto|]. contradiction.
Qed.

Lemma areas_fin_total merged :
  total_study_area merged
  = Fin (fin_total ((fun m => Fin (area_hectares m)) <$> merged)).
Proof.
  unfold total_study_area. apply nansum_fin_total, Forall_fmap, Forall_forall.
  intros m _. exact I.
Qed.

(** C2.  The aesthetic calculator returns a table whenever the total area
    of the rows it keeps is not zero, and a returned table has one row per
    matched row of the join.  In every row of a returned table the code is
    matched; the percentage is the row's area over the total area
    of the kept rows, times 100; the rarity follows the right-inclusive
    thresholds 1, 5, 15, 30; the score is naturalness x 0.67 + rarity x
    0.33.  At 1.0, 1.0001, 30.0 and 30.0001 the bins are 5, 4, 2, 1. *)
Theorem aesthetic_rarity_binning_and_score df lookup :
  (total_study_area (aesthetic_merged df lookup) <> Fin 0 ->
   exists rows, process_aesthetic_quality df lookup = Ok rows)
  /\ (forall rows, process_aesthetic_quality df lookup = Ok rows ->
      aes_src <$> rows = aesthetic_merged df lookup)
  /\ (forall rows, process_aesthetic_quality df lookup = Ok rows ->
      forall r, r ∈ rows ->
      exists l, m_lookup (aes_src r) = Some l
      /\ aes_percentage_of_total r
         = nmul (ndiv (Fin (area_hectares (aes_src r)))
                      (total_study_area (aes_src <$> rows)))
                (Fin (qz 100))
      /\ (forall p, aes_percentage_of_total r = Fin p ->
            ((p <= qz 1)%Qc -> rarity_score r = 5)
            /\ ((qz 1 < p)%Qc -> (p <= qz 5)%Qc -> rarity_score r = 4)
            /\ ((qz 5 < p)%Qc -> (p <= qz 15)%Qc -> rarity_score r = 3)
            /\ ((qz 15 < p)%Qc -> (p <= qz 30)%Qc -> rarity_score r = 2)
            /\ ((qz 30 < p)%Qc -> rarity_score r = 1))
      /\ aesthetic_quality_score r
         = Fin (naturalness l * dec 67 100
                + qz (rarity_score r) * dec 33 100))
  /\ cut rarity_bins rarity_labels (Fin (qz 1)) = Some 5
  /\ cut rarity_bins rarity_labels (Fin (dec 10001 10000)) = Some 4
  /\ cut rarity_bins rarity_labels (Fin (qz 30)) = Some 2
  /\ cut rarity_bins rarity_labels (Fin (dec 300001 10000)) = Some 1.
Proof.
  split; [|split; [|split]].
  - unfold process_aesthetic_quality. rewrite areas_fin_total.
    set (t := fin_total _). intros Hne.
    assert (Ht : t <> 0%Qc) by congruence.
    apply collect_total, Forall_forall. intros m _.
    unfold aesthetic_score_row, aes_percentage.
    change (nmul (ndiv (Fin (area_hectares m)) (Fin t)) (Fin (qz 100)))
      with (share (Fin t) (Fin (area_hectares m))).
    rewrite (share_fin _ _ Ht), cut_rarity_fin. eexists; reflexivity.
  - intros rows Hrows. exact (aesthetic_rows_src _ _ _ Hrows).
  - intros rows Hrows r Hr. unfold process_aesthetic_quality in Hrows.
    pose proof (aesthetic_rows_src _ _ _ Hrows) as Hsrc.
    apply collect_Ok in Hrows.
    apply list_elem_of_lookup in Hr as [i Hi].
    destruct (Forall2_lookup_r _ _ _ _ _ Hrows Hi) as (m & Hm & Hrow).
    apply aesthetic_score_row_Ok in Hrow as (Hs & Hp & Hc & Hn & Hq).
    destruct (aesthetic_merged_matched df lookup m) as [l Hl].
    { eapply list_elem_of_lookup_2, Hm. }
    exists l. rewrite Hs, Hsrc. split; [exact Hl|].
    split; [exact Hp|]. split.
    + intros p Hfin. rewrite Hp in Hfin. rewrite Hfin, cut_rarity_fin in Hc.
      injection Hc as <-. apply rarity_of_thresholds.
    + rewrite Hq. unfold col. rewrite Hl. reflexivity.
  - repeat split; rewrite cut_rarity_fin; reflexivity.
Qed.

(** ** Carbon formulas *)

Lemma ndiv_fin a b : b <> 0%Qc -> ndiv (Fin a) (Fin b) = Fin (a / b).
Proof.
  intros Hb. cbn. destruct (decide (b = 0%Qc)); [contradiction|reflexivity].
Qed.

Lemma ndiv_fin_zero a :
  fillna 0 (replace_inf (ndiv (Fin a) (Fin 0%Qc))) = Fin 0.
Proof.
  cbn -[Qc_sgn]. destruct (decide (0%Qc = 0%Qc)); [|contradiction].
  destruct (Qc_sgn a); reflexivity.
Qed.

Lemma round_dp_zero d : round_dp d 0 = 0%Qc.
Proof.
  unfold round_dp. rewrite Qcmult_0_l.
  change (rint 0%Qc) with 0. apply Qcmult_0_l.
Qed.

Lemma fillna_col f m : fillna 0 (col f m) = Fin (component f m).
Proof. unfold col, component. destruct (m_lookup m); reflexivity. Qed.

Lemma carbon_tc_formula m :
  carbon_tc m
  = Fin ((component agc_tc_ha m + component bgc_tc_ha m
          + component soc_tc_ha m + component deoc_tc_ha m)
         * area_hectares m).
Proof. unfold carbon_tc. rewrite !fillna_col. reflexivity. Qed.

Lemma carbon_rows_elem df lookup r :
  r ∈ (process_carbon_sequestration df lookup).1 ->
  total_carbon_tc r = carbon_tc (carbon_src r)
  /\ ssc r = nmul (carbon_tc (carbon_src r)) (Fin (qz 252))
  /\ carbon_src r ∈ merge_left (groupby_sum df) lookup.
Proof.
  unfold process_carbon_sequestration. cbn [fst].
  rewrite list_elem_of_fmap. intros (m & -> & Hm). cbn. auto.
Qed.

(** C3, as the code has it.  For every row of the carbon table:
    total_carbon = (agc + bgc + soc + deoc) x area on the aggregated area,
    a component missing from the lookup counting as 0, so the total is
    never null; the stored ssc is total_carbon x 252 / 1e6 rounded to 4
    decimals; the stored area is the area rounded to 4 decimals; and
    ssc_density is the stored ssc over the stored area, rounded to 6
    decimals, or 0 when the stored area is 0. *)
Theorem carbon_formulas df lookup r :
  r ∈ (process_carbon_sequestration df lookup).1 ->
  let m := carbon_src r in
  let tc := ((component agc_tc_ha m + component bgc_tc_ha m
              + component soc_tc_ha m + component deoc_tc_ha m)
             * area_hectares m)%Qc in
  let stored_ssc := round_dp 4 (tc * qz 252 / qz 1000000) in
  let stored_area := round_dp 4 (area_hectares m) in
  total_carbon_tc r = Fin tc
  /\ cs_total_carbon_tc (save_carbon_row r) = Fin tc
  /\ cs_ssc (save_carbon_row r) = Fin stored_ssc
  /\ cs_area_hectares (save_carbon_row r) = stored_area
  /\ cs_ssc_density (save_carbon_row r)
     = (if decide (stored_area = 0%Qc) then Fin 0
        else Fin (round_dp 6 (stored_ssc / stored_area)))
  /\ (area_hectares m = 0%Qc ->
      cs_ssc_density (save_carbon_row r) = Fin 0).
Proof.
  intros Hr m tc stored_ssc stored_area.
  apply carbon_rows_elem in Hr as (Htc & Hssc & _).
  assert (Htc' : total_carbon_tc r = Fin tc).
  { rewrite Htc. apply carbon_tc_formula. }
  assert (Hs : cs_ssc (save_carbon_row r) = Fin stored_ssc).
  { unfold save_carbon_row. cbn [cs_ssc]. rewrite Hssc, carbon_tc_formula.
    cbn [nmul]. rewrite ndiv_fin by qc_neq. reflexivity. }
  assert (Hd : cs_ssc_density (save_carbon_row r)
               = if decide (stored_area = 0%Qc) then Fin 0
                 else Fin (round_dp 6 (stored_ssc / stored_area))).
  { unfold save_carbon_row in *. cbn [cs_ssc_density cs_ssc] in *.
    rewrite Hs. fold m. fold stored_area.
    destruct (decide (stored_area = 0%Qc)) as [Hz|Hz].
    - rewrite Hz, ndiv_fin_zero. cbn [nround]. f_equal. apply round_dp_zero.
    - rewrite ndiv_fin by exact Hz. reflexivity. }
  repeat split; try assumption.
  - intros Hz. rewrite Hd. subst stored_area. rewrite Hz, round_dp_zero.
    destruct (decide (0%Qc = 0%Qc)); [reflexivity|contradiction].
Qed.

(** ** Cost projection *)

Lemma collect_Raise_inv {A B} (f : A -> result B) l e :
  collect f l = Raise e -> exists x, x ∈ l /\ f x = Raise e.
Proof.
  induction l as [|x l IH]; cbn; [discriminate|].
  destruct (f x) as [y|e'] eqn:Hx.
  - destruct (collect f l) as [ys|e'']; [discriminate|].
    intros [= <-]. destruct IH as (x' & Hin & Hx'); [reflexivity|].
    exists x'. split; [right; exact Hin|exact Hx'].
  - intros [= <-]. exists x. split; [left|exact Hx].
Qed.

Lemma collect_length {A B} (f : A -> result B) l ys :
  collect f l = Ok ys -> length ys = length l.
Proof. intros H. apply collect_Ok, Forall2_length in H. congruence. Qed.

Lemma foldl_max_spec l y :
  foldl Z.max y l ∈ y :: l /\ Forall (fun z => z <= foldl Z.max y l) (y :: l).
Proof.
  revert y. induction l as [|x l IH]; intros y; cbn [foldl].
  - split; [left|]. repeat constructor. lia.
  - destruct (IH (Z.max y x)) as [Hin Hall].
    apply Forall_cons in Hall as [Hm Hall]. split.
    + apply elem_of_cons in Hin as [->|Hin].
      * destruct (Z.max_spec y x) as [[_ ->]|[_ ->]];
          [right; left|left].
      * right; right; exact Hin.
    + repeat constructor; [lia|lia|exact Hall].
Qed.

Lemma py_max_Ok l y :
  py_max l = Ok y -> y ∈ l /\ Forall (fun z => z <= y) l.
Proof.
  destruct l as [|x l]; cbn; [discriminate|].
  intros [= <-]. apply foldl_max_spec.
Qed.

Lemma elem_of_keys (m : gmap Z Qc) y :
  y ∈ (map_to_list m).*1 <-> is_Some (m !! y).
Proof.
  rewrite list_elem_of_fmap. split.
  - intros ([k v] & -> & Hkv). apply elem_of_map_to_list in Hkv.
    cbn. eauto.
  - intros [v Hv]. exists (y, v). split; [reflexivity|].
    apply elem_of_map_to_list, Hv.
Qed.

Lemma latest_exact (m : gmap Z Qc) year y :
  is_Some (m !! year) -> latest_at_or_before m year y -> y = year.
Proof.
  intros Hy (_ & Hle & Hmax). specialize (Hmax year Hy). lia.
Qed.

Lemma annual_scc_value_Ok (m : gmap Z Qc) year v :
  annual_scc_value m year = Ok v ->
  exists y, latest_at_or_before m year y /\ m !! y = Some v.
Proof.
  unfold annual_scc_value. destruct (m !! year) as [v'|] eqn:Hy.
  - intros [= <-]. exists year. split; [|exact Hy].
    split; [eauto|]. split; [lia|]. auto.
  - destruct (py_max _) as [last_year|e] eqn:Hmax; [|discriminate].
    destruct (m !! last_year) as [v'|] eqn:Hl; [|discriminate].
    intros [= <-]. exists last_year. split; [|exact Hl].
    apply py_max_Ok in Hmax as [Hin Hall].
    apply list_elem_of_filter in Hin as [Hle Hin].
    split; [eauto|]. split; [exact Hle|].
    intros y' Hy' Hle'. rewrite Forall_forall in Hall. apply Hall.
    apply list_elem_of_filter. split; [exact Hle'|]. apply elem_of_keys, Hy'.
Qed.

Lemma annual_scc_value_defined (m : gmap Z Qc) year y :
  is_Some (m !! y) -> y <= year -> exists v, annual_scc_value m year = Ok v.
Proof.
  intros Hy Hle. unfold annual_scc_value.
  destruct (m !! year) as [v|]; [eauto|].
  destruct (py_max _) as [last_year|e] eqn:Hmax.
  - apply py_max_Ok in Hmax as [Hin _].
    apply list_elem_of_filter in Hin as [_ Hin].
    apply elem_of_keys in Hin as [v ->]. eauto.
  - exfalso.
    assert (Hin : y ∈ filter (fun y => y <= year) (map_to_list m).*1).
    { apply list_elem_of_filter. split; [exact Hle|]. apply elem_of_keys, Hy. }
    destruct (filter _ _); [inversion Hin|discriminate].
Qed.

Lemma annual_scc_value_Raise (m : gmap Z Qc) year e :
  annual_scc_value m year = Raise e ->
  e = ValueError "max() arg is an empty sequence"
  /\ forall y, is_Some (m !! y) -> year < y.
Proof.
  intros Hr.
  assert (Hnone : forall y, is_Some (m !! y) -> year < y).
  { intros y Hy. destruct (Z.lt_ge_cases year y) as [|Hle]; [assumption|].
    destruct (annual_scc_value_defined m year y Hy Hle) as [v Hv]. congruence. }
  split; [|exact Hnone].
  unfold annual_scc_value in Hr. destruct (m !! year) eqn:Hy; [discriminate|].
  destruct (filter _ _) as [|y l] eqn:Hf.
  - cbn in Hr. congruence.
  - exfalso. assert (Hin : y ∈ y :: l) by left. rewrite <- Hf in Hin.
    apply list_elem_of_filter in Hin as [Hle Hin].
    apply elem_of_keys, Hnone in Hin. lia.
Qed.

Lemma Qcpower_nonzero (q : Qc) n : q <> 0%Qc -> (q ^ n)%Qc <> 0%Qc.
Proof.
  intros Hq. induction n as [|n IH]; cbn [Qcpower].
  - qc_neq.
  - intros H. apply Qcmult_integral in H as [H|H]; contradiction.
Qed.

Lemma discounted_value_formula s rate start_year year annual :
  (1 + rate)%Qc <> 0%Qc ->
  discounted_value s rate start_year year annual
  = Fin (s * annual * (1 / (1 + rate) ^ Z.to_nat (year - start_year))).
Proof.
  intros Hr. unfold discounted_value.
  pose proof (Qcpower_nonzero _ (Z.to_nat (year - start_year)) Hr) as Hp.
  rewrite ndiv_fin by exact Hp. f_equal.
  generalize dependent ((1 + rate) ^ Z.to_nat (year - start_year))%Qc.
  intros d Hd. field. exact Hd.
Qed.

(** C5.  With a discount rate other than -1 and a schedule that has, for
    every requested year, some year at or before it, the projection returns
    one value per year of [start_year .. end_year], in year order.  The
    value for a year is (total / 252) x price x 1 / (1 + rate)^(year -
    start_year), where the price is that of the latest schedule year at or
    before the requested year: the year itself when the schedule has it,
    never a later one, and always a price found in the schedule. *)
Theorem discounted_social_cost_series
    total_ssc_millions scc_df start_year end_year discount_rate :
  (1 + discount_rate)%Qc <> 0%Qc ->
  (forall year, start_year <= year <= end_year ->
     exists y, is_Some (scc_dict scc_df !! y) /\ y <= year) ->
  exists series,
    plot_discounted_social_cost total_ssc_millions scc_df
      start_year end_year discount_rate = Ok series
    /\ length series = Z.to_nat (end_year + 1 - start_year)
    /\ forall year, start_year <= year <= end_year ->
       exists y price,
         latest_at_or_before (scc_dict scc_df) year y
         /\ (is_Some (scc_dict scc_df !! year) -> y = year)
         /\ scc_dict scc_df !! y = Some price
         /\ series !! Z.to_nat (year - start_year)
            = Some (Fin (total_ssc_millions / qz 252 * price
                         * (1 / (1 + discount_rate)
                                ^ Z.to_nat (year - start_year)))).
Proof.
  intros Hrate Hsched. unfold plot_discounted_social_cost.
  set (m := scc_dict scc_df).
  set (f := fun year => match annual_scc_value m year with
                        | Raise e => Raise e
                        | Ok annual => Ok (discounted_value _ _ _ _ _)
                        end).
  destruct (collect_total f (seqZ start_year (end_year + 1 - start_year)))
    as [series Hser].
  { apply Forall_forall. intros year Hy. apply elem_of_seqZ in Hy.
    destruct (Hsched year) as (y & Hy1 & Hy2); [lia|].
    destruct (annual_scc_value_defined m year y Hy1 Hy2) as [v Hv].
    unfold f. rewrite Hv. eauto. }
  exists series. split; [exact Hser|]. split.
  { rewrite (collect_length _ _ _ Hser). apply length_seqZ. }
  intros year Hyear. apply collect_Ok in Hser.
  assert (Hl : seqZ start_year (end_year + 1 - start_year)
                 !! Z.to_nat (year - start_year) = Some year).
  { apply lookup_seqZ. split; lia. }
  destruct (Forall2_lookup_l _ _ _ _ _ Hser Hl) as (v & Hv & Hf).
  unfold f in Hf. destruct (annual_scc_value m year) as [price|e] eqn:Ha;
    [|discriminate].
  injection Hf as <-.
  apply annual_scc_value_Ok in Ha as (y & Hlatest & Hprice).
  exists y, price. split; [exact Hlatest|].
  split; [intros Hs; eapply latest_exact; eassumption|].
  split; [exact Hprice|].
  rewrite Hv. f_equal. apply discounted_value_formula, Hrate.
Qed.

(** C8.  When some requested year is missing from the schedule and every
    schedule year lies after it, the projection raises the error of [max]
    on an empty list; and whenever the projection returns, every requested
    year has a schedule year at or before it. *)
Theorem cost_projection_before_schedule_raises
    total_ssc_millions scc_df start_year end_year discount_rate :
  ((exists year, start_year <= year <= end_year
                 /\ scc_dict scc_df !! year = None
                 /\ forall y, is_Some (scc_dict scc_df !! y) -> year < y) ->
   plot_discounted_social_cost total_ssc_millions scc_df
     start_year end_year discount_rate
   = Raise (ValueError "max() arg is an empty sequence"))
  /\ (forall series,
        plot_discounted_social_cost total_ssc_millions scc_df
          start_year end_year discount_rate = Ok series ->
        forall year, start_year <= year <= end_year ->
        exists y, is_Some (scc_dict scc_df !! y) /\ y <= year).
Proof.
  unfold plot_discounted_social_cost.
  set (m := scc_dict scc_df).
  set (f := fun year => match annual_scc_value m year with
                        | Raise e => Raise e
                        | Ok annual => Ok (discounted_value _ _ _ _ _)
                        end).
  assert (Hf : forall year e, f year = Raise e ->
                 e = ValueError "max() arg is an empty sequence").
  { intros year e. unfold f.
    destruct (annual_scc_value m year) eqn:Ha; [discriminate|].
    intros [= <-]. apply annual_scc_value_Raise in Ha as [-> _]. reflexivity. }
  split.
  - intros (year & Hrange & Hnone & Hafter).
    assert (Hin : year ∈ seqZ start_year (end_year + 1 - start_year)).
    { apply elem_of_seqZ. lia. }
    assert (Hy : exists e, f year = Raise e).
    { unfold f. destruct (annual_scc_value m year) as [v|e] eqn:Ha; [|eauto].
      apply annual_scc_value_Ok in Ha as (y & (Hs & Hle & _) & _).
      apply Hafter in Hs. lia. }
    destruct Hy as [e He].
    destruct (collect_Raise f _ _ _ Hin He) as [e' He'].
    rewrite He'. f_equal.
    apply collect_Raise_inv in He' as (x & _ & Hx). eapply Hf, Hx.
  - intros series Hser year Hyear. apply collect_Ok in Hser.
    assert (Hl : seqZ start_year (end_year + 1 - start_year)
                   !! Z.to_nat (year - start_year) = Some year).
    { apply lookup_seqZ. split; lia. }
    destruct (Forall2_lookup_l _ _ _ _ _ Hser Hl) as (v & _ & Hv).
    unfold f in Hv. destruct (annual_scc_value m year) as [price|e] eqn:Ha;
      [|discriminate].
    apply annual_scc_value_Ok in Ha as (y & (Hs & Hle & _) & _). eauto.
Qed.

(** ** Aggregation and the join on code *)

Lemma agg_insert_keys k a acc k' :
  k' ∈ (agg_insert k a acc).*1 <-> k' = k \/ k' ∈ acc.*1.
Proof.
  induction acc as [|[k0 a0] acc IH]; cbn [agg_insert].
  - cbn. rewrite list_elem_of_singleton, elem_of_nil. tauto.
  - destruct (k <? k0) eqn:Hlt; [|destruct (k =? k0) eqn:Heq].
    + rewrite fmap_cons, elem_of_cons. reflexivity.
    + apply Z.eqb_eq in Heq. subst k0.
      rewrite !fmap_cons, !elem_of_cons. cbn. tauto.
    + rewrite !fmap_cons, !elem_of_cons, IH. cbn. tauto.
Qed.

Lemma groupby_sum_keys df k :
  k ∈ (groupby_sum df).*1 <-> Some k ∈ gridcode <$> df.
Proof.
  unfold groupby_sum.
  assert (H : forall acc,
             k ∈ (foldl (fun acc r =>
                           match gridcode r with
                           | None => acc
                           | Some k => agg_insert k (default 0%Qc (SUM_Area_Ha r)) acc
                           end) acc df).*1
             <-> k ∈ acc.*1 \/ Some k ∈ gridcode <$> df).
  { induction df as [|r df IH]; intros acc; cbn [foldl].
    - rewrite fmap_nil, elem_of_nil. tauto.
    - rewrite IH, fmap_cons, elem_of_cons.
      destruct (gridcode r) as [k0|].
      + rewrite agg_insert_keys. split.
        * intros [[->|H]|H]; auto.
        * intros [H|[[= ->]|H]]; auto.
      + split; [intros [H|H]; auto|].
        intros [H|[H|H]]; auto. discriminate. }
  rewrite H. cbn. rewrite elem_of_nil. tauto.
Qed.

Lemma elem_of_merge_left agg lookup m :
  m ∈ merge_left agg lookup <->
  exists ka, ka ∈ agg /\ m_gridcode m = ka.1 /\ area_hectares m = ka.2
    /\ ((m_lookup m = None /\ ka.1 ∉ solris_code <$> lookup)
        \/ exists l, l ∈ lookup /\ solris_code l = ka.1
                     /\ m_lookup m = Some l).
Proof.
  unfold merge_left. rewrite list_elem_of_bind. split.
  - intros (ka & Hm & Hka). exists ka. split; [exact Hka|].
    destruct (filter (fun l => solris_code l = ka.1) lookup) as [|l0 ms] eqn:Hf.
    + apply list_elem_of_singleton in Hm as ->. cbn.
      repeat split. left. split; [reflexivity|].
      rewrite list_elem_of_fmap. intros (l & Hl1 & Hl2).
      assert (Hin : l ∈ filter (fun l => solris_code l = ka.1) lookup)
        by (apply list_elem_of_filter; auto).
      rewrite Hf in Hin. inversion Hin.
    + apply list_elem_of_fmap in Hm as (l & -> & Hl). cbn. repeat split.
      right. exists l. rewrite <- Hf in Hl.
      apply list_elem_of_filter in Hl as [Hc Hl]. auto.
  - intros (ka & Hka & Hg & Ha & Hcase). exists ka. split; [|exact Hka].
    destruct m as [g a ml]. cbn in *. subst g a.
    destruct Hcase as [[-> Hnot]|(l & Hl & Hc & ->)].
    + destruct (filter (fun l => solris_code l = ka.1) lookup) as [|l0 ms] eqn:Hf.
      * left.
      * exfalso. apply Hnot. assert (Hin : l0 ∈ l0 :: ms) by left.
        rewrite <- Hf in Hin. apply list_elem_of_filter in Hin as [Hc Hl].
        apply list_elem_of_fmap. eauto.
    + assert (Hin : l ∈ filter (fun l => solris_code l = ka.1) lookup)
        by (apply list_elem_of_filter; auto).
      destruct (filter (fun l => solris_code l = ka.1) lookup) as [|l0 ms];
        [inversion Hin|].
      change (MergedRow ka.1 ka.2 (Some l)
                ∈ (fun l => MergedRow ka.1 ka.2 (Some l)) <$> (l0 :: ms)).
      apply list_elem_of_fmap. eauto.
Qed.

(** A code of the area sheet that the lookup does not have stays in the
    join, with null lookup columns, and only so. *)
Lemma merge_left_unmatched df lookup g :
  Some g ∈ gridcode <$> df -> g ∉ solris_code <$> lookup ->
  (exists m, m ∈ merge_left (groupby_sum df) lookup /\ m_gridcode m = g)
  /\ forall m, m ∈ merge_left (groupby_sum df) lookup -> m_gridcode m = g ->
               m_lookup m = None.
Proof.
  intros Hin Hnot. split.
  - apply groupby_sum_keys, list_elem_of_fmap in Hin as ([k a] & Hk & Hka).
    cbn in Hk. subst k. exists (MergedRow g a None). split; [|reflexivity].
    apply elem_of_merge_left. exists (g, a). cbn.
    split; [exact Hka|]. repeat split. left. split; [reflexivity|exact Hnot].
  - intros m Hm Hg. apply elem_of_merge_left in Hm
      as (ka & _ & Hg' & _ & [[H _]|(l & Hl & Hc & _)]); [exact H|].
    exfalso. apply Hnot, list_elem_of_fmap. exists l. split; [congruence|exact Hl].
Qed.

Lemma elem_of_unique x l : x ∈ unique l <-> x ∈ l.
Proof.
  induction l as [|y l IH]; cbn [unique]; [reflexivity|].
  rewrite !elem_of_cons, list_elem_of_filter, IH.
  destruct (decide (x = y)); tauto.
Qed.

Lemma elem_of_missing_codes merged c :
  c ∈ missing_codes merged <->
  exists m, m ∈ merged /\ m_lookup m = None /\ m_gridcode m = c.
Proof.
  unfold missing_codes. rewrite elem_of_unique, list_elem_of_fmap. split.
  - intros (m & -> & Hm). apply list_elem_of_filter in Hm as [Hn Hm].
    exists m. repeat split; [exact Hm|].
    unfold col_solris_class in Hn. destruct (m_lookup m); [discriminate|reflexivity].
  - intros (m & Hm & Hn & <-). exists m. split; [reflexivity|].
    apply list_elem_of_filter. split; [|exact Hm].
    unfold col_solris_class. rewrite Hn. reflexivity.
Qed.

Lemma warn_missing_unmatched merged m :
  m ∈ merged -> m_lookup m = None ->
  warn_missing merged = [Warning_missing_lookup (missing_codes merged)]
  /\ m_gridcode m ∈ missing_codes merged.
Proof.
  intros Hm Hn.
  assert (Hin : m_gridcode m ∈ missing_codes merged).
  { apply elem_of_missing_codes. eauto. }
  split; [|exact Hin]. unfold warn_missing.
  destruct (missing_codes merged); [inversion Hin|].
  case_decide as Hd; [reflexivity|]. cbn in Hd. lia.
Qed.

Lemma missing_codes_spec df lookup c :
  c ∈ missing_codes (merge_left (groupby_sum df) lookup) <->
  Some c ∈ gridcode <$> df /\ c ∉ solris_code <$> lookup.
Proof.
  rewrite elem_of_missing_codes. split.
  - intros (m & Hm & Hn & <-).
    apply elem_of_merge_left in Hm
      as (ka & Hka & -> & _ & [[_ Hnot]|(l & _ & _ & Hl)]); [|congruence].
    split; [|exact Hnot]. apply groupby_sum_keys, list_elem_of_fmap. eauto.
  - intros [Hin Hnot].
    destruct (merge_left_unmatched df lookup c Hin Hnot) as [(m & Hm & Hg) Hall].
    exists m. repeat split; [exact Hm| |exact Hg]. apply Hall; assumption.
Qed.

Lemma share_nan_l t : nmul (ndiv NaN t) (Fin (qz 100)) = NaN.
Proof. destruct t; reflexivity. Qed.

Lemma carbon_tc_unmatched m : m_lookup m = None -> carbon_tc m = Fin 0.
Proof.
  intros Hn. rewrite carbon_tc_formula. unfold component. rewrite Hn.
  f_equal. ring.
Qed.

Lemma bio_rows_elem df lookup r :
  r ∈ (process_biocapacity_data df lookup).1 <->
  exists m, m ∈ merge_left (groupby_sum df) lookup
    /\ r = BioRow m (bio_gha m)
             (nmul (ndiv (bio_gha m)
                      (nansum (bio_gha <$> merge_left (groupby_sum df) lookup)))
                   (Fin (qz 100))).
Proof.
  unfold process_biocapacity_data. cbn [fst]. rewrite list_elem_of_fmap.
  split; intros (m & H1 & H2); exists m; auto.
Qed.

Lemma carbon_rows_src df lookup m :
  m ∈ merge_left (groupby_sum df) lookup ->
  exists r, r ∈ (process_carbon_sequestration df lookup).1 /\ carbon_src r = m.
Proof.
  intros Hm. unfold process_carbon_sequestration. cbn [fst].
  eexists. split; [apply list_elem_of_fmap; eexists; split; [reflexivity|exact Hm]|].
  reflexivity.
Qed.

(** C7, as the code has it.  For a code of the area sheet that the
    reference table lacks: the biocapacity calculator keeps its row, with
    null lookup columns, null biocapacity and null percentage, and logs one
    warning listing exactly the missing codes; the carbon calculator keeps
    its row with null lookup columns and logs the same warning, but its
    total carbon and social cost are 0, not null; the aesthetic calculator
    has no row for that code in any table it returns. *)
Theorem missing_reference_policies df lookup g :
  Some g ∈ gridcode <$> df ->
  g ∉ solris_code <$> lookup ->
  ((exists r, r ∈ (process_biocapacity_data df lookup).1
              /\ m_gridcode (bio_src r) = g)
   /\ (forall r, r ∈ (process_biocapacity_data df lookup).1 ->
         m_gridcode (bio_src r) = g ->
         m_lookup (bio_src r) = None
         /\ col biocapacity_conversion_factor (bio_src r) = NaN
         /\ biocapacity_gha r = NaN
         /\ bio_percentage_of_total r = NaN)
   /\ exists codes,
        (process_biocapacity_data df lookup).2 = [Warning_missing_lookup codes]
        /\ forall c, c ∈ codes <->
             Some c ∈ gridcode <$> df /\ c ∉ solris_code <$> lookup)
  /\ ((exists r, r ∈ (process_carbon_sequestration df lookup).1
                 /\ m_gridcode (carbon_src r) = g)
      /\ (forall r, r ∈ (process_carbon_sequestration df lookup).1 ->
            m_gridcode (carbon_src r) = g ->
            m_lookup (carbon_src r) = None
            /\ col agc_tc_ha (carbon_src r) = NaN
            /\ col bgc_tc_ha (carbon_src r) = NaN
            /\ col soc_tc_ha (carbon_src r) = NaN
            /\ col deoc_tc_ha (carbon_src r) = NaN
            /\ total_carbon_tc r = Fin 0
            /\ ssc r = Fin 0)
      /\ exists codes,
           (process_carbon_sequestration df lookup).2
           = [Warning_missing_lookup codes]
           /\ forall c, c ∈ codes <->
                Some c ∈ gridcode <$> df /\ c ∉ solris_code <$> lookup)
  /\ (forall rows, process_aesthetic_quality df lookup = Ok rows ->
      forall r, r ∈ rows -> m_gridcode (aes_src r) <> g).
Proof.
  intros Hin Hnot.
  destruct (merge_left_unmatched df lookup g Hin Hnot) as [(m & Hm & Hg) Hall].
  pose proof (warn_missing_unmatched _ m Hm (Hall m Hm Hg)) as [Hw _].
  split; [|split].
  - split; [|split].
    + eexists. split; [apply bio_rows_elem; eauto|]. exact Hg.
    + intros r Hr Hgr. apply bio_rows_elem in Hr as (m' & Hm' & ->).
      cbn [bio_src biocapacity_gha bio_percentage_of_total] in *.
      pose proof (Hall m' Hm' Hgr) as Hn.
      assert (Hb : bio_gha m' = NaN).
      { unfold bio_gha, col. rewrite Hn. reflexivity. }
      unfold col. rewrite Hb, Hn, share_nan_l. auto.
    + exists (missing_codes (merge_left (groupby_sum df) lookup)).
      split; [exact Hw|]. intros c. apply missing_codes_spec.
  - split; [|split].
    + destruct (carbon_rows_src df lookup m Hm) as (r & Hr & Hs).
      exists r. rewrite Hs. auto.
    + intros r Hr Hgr.
      apply carbon_rows_elem in Hr as (Htc & Hssc & Hm').
      pose proof (Hall _ Hm' Hgr) as Hn.
      rewrite Hssc, Htc, (carbon_tc_unmatched _ Hn). unfold col. rewrite Hn.
      repeat split.
    + exists (missing_codes (merge_left (groupby_sum df) lookup)).
      split; [exact Hw|]. intros c. apply missing_codes_spec.
  - intros rows Hrows r Hr Hgr. unfold process_aesthetic_quality in Hrows.
    pose proof (aesthetic_rows_src _ _ _ Hrows) as Hsrc.
    assert (Hs : aes_src r ∈ aesthetic_merged df lookup).
    { rewrite <- Hsrc. apply list_elem_of_fmap. eauto. }
    destruct (aesthetic_merged_matched _ _ _ Hs) as [l Hl].
    unfold aesthetic_merged, dropna_class in Hs.
    apply list_elem_of_filter in Hs as [_ Hs].
    rewrite (Hall _ Hs Hgr) in Hl. discriminate.
Qed.

(** ** Water filtration *)

Lemma elem_of_merge_wf merged wf_df mv :
  mv ∈ merge_wf merged wf_df <->
  mv.1 ∈ merged
  /\ ((mv.2 = NaN
       /\ forall w, w ∈ wf_df -> wetland_type w <> col_solris_class mv.1)
      \/ exists w, w ∈ wf_df /\ wetland_type w = col_solris_class mv.1
                   /\ mv.2 = of_cell (wf_value w)).
Proof.
  unfold merge_wf. rewrite list_elem_of_bind. split.
  - intros (m & Hmv & Hm).
    destruct (filter (fun w => wetland_type w = col_solris_class m) wf_df)
      as [|w0 ws] eqn:Hf.
    + apply list_elem_of_singleton in Hmv as ->. cbn. split; [exact Hm|].
      left. split; [reflexivity|]. intros w Hw Heq.
      assert (Hin : w ∈ filter (fun w => wetland_type w = col_solris_class m)
                          wf_df) by (apply list_elem_of_filter; auto).
      rewrite Hf in Hin. inversion Hin.
    + apply list_elem_of_fmap in Hmv as (w & -> & Hw). cbn.
      split; [exact Hm|]. right. exists w. rewrite <- Hf in Hw.
      apply list_elem_of_filter in Hw as [Heq Hw]. auto.
  - destruct mv as [m v]. cbn [fst snd]. intros [Hm Hcase]. exists m.
    split; [|exact Hm].
    destruct Hcase as [[-> Hnone]|(w & Hw & Heq & ->)].
    + destruct (filter (fun w => wetland_type w = col_solris_class m) wf_df)
        as [|w0 ws] eqn:Hf; [left|].
      exfalso. assert (Hin : w0 ∈ w0 :: ws) by left. rewrite <- Hf in Hin.
      apply list_elem_of_filter in Hin as [Heq Hw]. exact (Hnone _ Hw Heq).
    + assert (Hin : w ∈ filter (fun w => wetland_type w = col_solris_class m)
                          wf_df) by (apply list_elem_of_filter; auto).
      destruct (filter (fun w => wetland_type w = col_solris_class m) wf_df)
        as [|w0 ws]; [inversion Hin|].
      change ((m, of_cell (wf_value w))
                ∈ (fun w => (m, of_cell (wf_value w))) <$> (w0 :: ws)).
      apply list_elem_of_fmap. eauto.
Qed.

Lemma water_rows_elem df lookup wf_df r :
  r ∈ (process_water_filtration df lookup wf_df).1 <->
  exists mv,
    mv ∈ merge_wf (merge_left (groupby_sum df) lookup) wf_df
    /\ water_src r = mv.1
    /\ wf_value_per_ha r = fillna 0 mv.2
    /\ total_wf_value r = wf_total mv
    /\ water_percentage_of_total r
       = (if nonzero (nansum (wf_total <$>
                        merge_wf (merge_left (groupby_sum df) lookup) wf_df))
          then fillna 0 (share (nansum (wf_total <$>
                        merge_wf (merge_left (groupby_sum df) lookup) wf_df))
                          (wf_total mv))
          else Fin 0).
Proof.
  unfold process_water_filtration. cbn [fst]. rewrite list_elem_of_fmap.
  split.
  - intros (mv & -> & Hmv). exists mv. cbn. auto.
  - intros (mv & Hmv & H1 & H2 & H3 & H4). exists mv. split; [|exact Hmv].
    destruct r. cbn in *. subst. reflexivity.
Qed.


Lemma wf_total_null m : wf_total (m, NaN) = Fin 0.
Proof.
  unfold wf_total. cbn [fst snd fillna nmul nround].
  rewrite Qcmult_0_r, round_dp_zero. reflexivity.
Qed.


Lemma calculators_warn df lookup g :
  Some g ∈ gridcode <$> df -> g ∉ solris_code <$> lookup ->
  exists codes,
    g ∈ codes
    /\ (process_biocapacity_data df lookup).2 = [Warning_missing_lookup codes]
    /\ (process_carbon_sequestration df lookup).2
       = [Warning_missing_lookup codes].
Proof.
  intros Hin Hnot.
  destruct (merge_left_unmatched df lookup g Hin Hnot) as [(m & Hm & Hg) Hall].
  destruct (warn_missing_unmatched _ m Hm (Hall m Hm Hg)) as [Hw Hc].
  exists (missing_codes (merge_left (groupby_sum df) lookup)).
  rewrite Hg in Hc. auto.
Qed.

(** C9, as the code has it.  Provided no row of the wetland-value table has
    an empty type name, a code of the area sheet that the reference table
    lacks keeps a row in the water table; every such row has a null class
    name, value per hectare 0 and total_wf_value 0; and the water
    calculator logs nothing, where the biocapacity and carbon calculators
    log a warning that lists the code. *)
Theorem water_keeps_unmatched_codes df lookup wf_df g :
  Some g ∈ gridcode <$> df ->
  g ∉ solris_code <$> lookup ->
  (forall w, w ∈ wf_df -> wetland_type w <> None) ->
  (exists r, r ∈ (process_water_filtration df lookup wf_df).1
             /\ m_gridcode (water_src r) = g)
  /\ (forall r, r ∈ (process_water_filtration df lookup wf_df).1 ->
        m_gridcode (water_src r) = g ->
        col_solris_class (water_src r) = None
        /\ wf_value_per_ha r = Fin 0
        /\ total_wf_value r = Fin 0)
  /\ (process_water_filtration df lookup wf_df).2 = []
  /\ exists codes,
       g ∈ codes
       /\ (process_biocapacity_data df lookup).2
          = [Warning_missing_lookup codes]
       /\ (process_carbon_sequestration df lookup).2
          = [Warning_missing_lookup codes].
Proof.
  intros Hin Hnot Hnames.
  destruct (merge_left_unmatched df lookup g Hin Hnot) as [(m & Hm & Hg) Hall].
  assert (Hjoin : forall m', m' ∈ merge_left (groupby_sum df) lookup ->
            m_gridcode m' = g ->
            col_solris_class m' = None
            /\ forall v, (m', v) ∈ merge_wf (merge_left (groupby_sum df) lookup)
                                     wf_df -> v = NaN).
  { intros m' Hm' Hg'. pose proof (Hall m' Hm' Hg') as Hn.
    assert (Hc : col_solris_class m' = None)
      by (unfold col_solris_class; rewrite Hn; reflexivity).
    split; [exact Hc|]. intros v Hv.
    apply elem_of_merge_wf in Hv as [_ [[Hv _]|(w & Hw & Heq & _)]];
      [exact Hv|].
    cbn [fst] in Heq. rewrite Hc in Heq. exfalso. exact (Hnames w Hw Heq). }
  split; [|split; [|split]].
  - exists (WaterRow m (fillna 0 NaN) (wf_total (m, NaN))
      (if nonzero (nansum (wf_total <$>
                     merge_wf (merge_left (groupby_sum df) lookup) wf_df))
       then fillna 0 (share (nansum (wf_total <$>
                     merge_wf (merge_left (groupby_sum df) lookup) wf_df))
                       (wf_total (m, NaN)))
       else Fin 0)).
    split; [|exact Hg]. apply water_rows_elem. exists (m, NaN).
    split; [|cbn; auto]. apply elem_of_merge_wf. cbn [fst snd].
    split; [exact Hm|]. left. split; [reflexivity|].
    intros w Hw Heq. destruct (Hjoin m Hm Hg) as [Hc _].
    rewrite Hc in Heq. exact (Hnames w Hw Heq).
  - intros r Hr Hgr.
    apply water_rows_elem in Hr as ([m' v] & Hmv & Hs & Hv & Ht & _).
    cbn [fst snd] in *. rewrite Hs in *.
    pose proof Hmv as Hmv'. apply elem_of_merge_wf in Hmv' as [Hm' _].
    cbn [fst] in Hm'. destruct (Hjoin m' Hm' Hgr) as [Hc Hnan].
    rewrite (Hnan v Hmv) in *. rewrite Hv, Ht, wf_total_null. auto.
  - reflexivity.
  - apply calculators_warn; assumption.
Qed.

(** ** Override map *)

Lemma same_but_factor_refl r : same_but_factor r r.
Proof. destruct r; reflexivity. Qed.

Lemma same_but_factor_set v r : same_but_factor r (set_conversion_factor v r).
Proof. destruct r; reflexivity. Qed.

Lemma same_but_factor_trans r1 r2 r3 :
  same_but_factor r1 r2 -> same_but_factor r2 r3 -> same_but_factor r1 r3.
Proof.
  unfold same_but_factor. intros H12 H23. rewrite H23 at 1. rewrite H12.
  destruct r1; reflexivity.
Qed.

Lemma apply_custom_factor_rows df item :
  Forall2 same_but_factor df (apply_custom_factor df item).
Proof.
  unfold apply_custom_factor.
  destruct (item.2 !! "biocapacity_conversion_factor"%string) as [v|].
  - apply Forall2_fmap_r, Forall_Forall2_diag, Forall_forall. intros r _.
    unfold compose.
    case_decide; [apply same_but_factor_set|apply same_but_factor_refl].
  - apply Forall_Forall2_diag, Forall_forall. intros r _.
    apply same_but_factor_refl.
Qed.

Lemma apply_custom_factors_rows custom_factors df :
  Forall2 same_but_factor df (apply_custom_factors custom_factors df).
Proof.
  unfold apply_custom_factors. revert df.
  induction custom_factors as [|item cf IH]; intros df; cbn [foldl].
  - apply Forall_Forall2_diag, Forall_forall. intros r _.
    apply same_but_factor_refl.
  - eapply Forall2_trans; [|apply apply_custom_factor_rows|apply IH].
    intros r1 r2 r3. apply same_but_factor_trans.
Qed.

Lemma apply_custom_factor_key df code factors factors' :
  factors !! "biocapacity_conversion_factor"%string
  = factors' !! "biocapacity_conversion_factor"%string ->
  apply_custom_factor df (code, factors)
  = apply_custom_factor df (code, factors').
Proof. unfold apply_custom_factor. cbn [fst snd]. intros ->. reflexivity. Qed.

Lemma apply_custom_factor_codes df item :
  csv_solris_code <$> apply_custom_factor df item = csv_solris_code <$> df.
Proof.
  pose proof (apply_custom_factor_rows df item) as H.
  induction H as [|r r' df df' Hr _ IH]; [reflexivity|].
  rewrite !fmap_cons, IH. f_equal. rewrite Hr. destruct r; reflexivity.
Qed.

Lemma apply_custom_factor_absent df code factors :
  Some code ∉ csv_solris_code <$> df ->
  apply_custom_factor df (code, factors) = df.
Proof.
  intros Hnot. unfold apply_custom_factor. cbn [fst snd].
  destruct (factors !! "biocapacity_conversion_factor"%string) as [v|];
    [|reflexivity].
  induction df as [|r df IH]; [reflexivity|].
  rewrite fmap_cons in *. apply not_elem_of_cons in Hnot as [Hr Hnot].
  rewrite IH by exact Hnot. case_decide; [congruence|reflexivity].
Qed.

(** C10.  Applying an override map leaves the number of rows and, in every
    row, every field other than biocapacity_conversion_factor as it was;
    two maps that agree, code by code, on the biocapacity_conversion_factor
    key give the same table, so any other key is ignored; and an entry for
    a code that no source row carries changes nothing, wherever it stands
    in the map. *)
Theorem custom_factors_patch_only_conversion_factor custom_factors df :
  (length (apply_custom_factors custom_factors df) = length df
   /\ forall i r r',
        df !! i = Some r ->
        apply_custom_factors custom_factors df !! i = Some r' ->
        csv_solris_code r' = csv_solris_code r
        /\ csv_solris_class r' = csv_solris_class r
        /\ csv_biocapacity_category r' = csv_biocapacity_category r
        /\ csv_lulc_category r' = csv_lulc_category r
        /\ csv_agc_tc_ha r' = csv_agc_tc_ha r
        /\ csv_bgc_tc_ha r' = csv_bgc_tc_ha r
        /\ csv_soc_tc_ha r' = csv_soc_tc_ha r
        /\ csv_deoc_tc_ha r' = csv_deoc_tc_ha r
        /\ csv_naturalness r' = csv_naturalness r
        /\ csv_description r' = csv_description r)
  /\ (forall custom_factors',
        Forall2 (fun item item' =>
                   item.1 = item'.1
                   /\ item.2 !! "biocapacity_conversion_factor"%string
                      = item'.2 !! "biocapacity_conversion_factor"%string)
                custom_factors custom_factors' ->
        apply_custom_factors custom_factors df
        = apply_custom_factors custom_factors' df)
  /\ (forall before after code factors,
        custom_factors = before ++ (code, factors) :: after ->
        Some code ∉ csv_solris_code <$> df ->
        apply_custom_factors custom_factors df
        = apply_custom_factors (before ++ after) df).
Proof.
  split; [|split].
  - pose proof (apply_custom_factors_rows custom_factors df) as H.
    split; [symmetry; eapply Forall2_length, H|].
    intros i r r' Hi Hi'.
    destruct (Forall2_lookup_l _ _ _ _ _ H Hi) as (r2 & Hr2 & Hsame).
    assert (r2 = r') by congruence. subst r2.
    rewrite Hsame. destruct r; cbn. repeat split.
  - intros cf' H. unfold apply_custom_factors. revert df.
    induction H as [|[c f] [c' f'] cf cf' [Hc Hf] _ IH]; intros df;
      [reflexivity|].
    cbn [foldl]. cbn [fst snd] in Hc, Hf. subst c'.
    rewrite (apply_custom_factor_key df c f f' Hf). apply IH.
  - intros before after code factors -> Hnot. unfold apply_custom_factors.
    rewrite !foldl_app. cbn [foldl]. f_equal.
    apply apply_custom_factor_absent.
    clear after. revert df Hnot.
    induction before as [|item before IH]; intros df Hnot; [exact Hnot|].
    cbn [foldl]. apply IH. rewrite apply_custom_factor_codes. exact Hnot.
Qed.

(** ** Reference reload *)

Lemma is_fk_message_fk t :
  is_fk_message (str (DBAPIError (ForeignKeyViolation t))) = true.
Proof. destruct t; vm_compute; reflexivity. Qed.

Lemma is_fk_message_undefined_lookup :
  is_fk_message (str (DBAPIError (UndefinedTable "solris_lookup"))) = false.
Proof. vm_compute. reflexivity. Qed.

Lemma execute_delete_blocked c :
  blocked c ->
  exists t, t ∈ constrained c
    /\ execute (constrained c) DELETE_FROM_solris_lookup (store c)
       = inl (ForeignKeyViolation t).
Proof.
  intros (old & t & Hl & Ht & Hr). cbn [execute]. rewrite Hl.
  destruct (filter (fun t => references (solris_code <$> old) t (store c) = true)
                   (constrained c)) as [|t0 ts] eqn:Hf.
  - exfalso.
    assert (Hin : t ∈ filter (fun t => references (solris_code <$> old) t
                                         (store c) = true) (constrained c))
      by (apply list_elem_of_filter; auto).
    rewrite Hf in Hin. inversion Hin.
  - exists t0. split; [|reflexivity].
    assert (Hin : t0 ∈ filter (fun t => references (solris_code <$> old) t
                                          (store c) = true) (constrained c))
      by (rewrite Hf; left).
    apply list_elem_of_filter in Hin. tauto.
Qed.


(** On a connection whose transaction is aborted each TRUNCATE is rejected
    and the rejection swallowed: the loop sends four statements and
    changes nothing. *)
Lemma for_each_truncate_aborted d cs ex :
  for_each tables_to_clear truncate_or_skip (Conn d cs Aborted ex)
  = (Ok tt, Conn d cs Aborted (ex ++ (TRUNCATE_TABLE <$> tables_to_clear))).
Proof.
  cbn [for_each tables_to_clear]. unfold truncate_or_skip, bind, try_except,
    conn_execute, ret. cbn [txn store constrained executed fmap list_fmap].
  rewrite <- !app_assoc. reflexivity.
Qed.

(** The [with] block of lines 199-230 never gets past a DELETE that
    fails: a failure that is not about a foreign key is raised again at
    once, and after a foreign-key failure the retried DELETE meets the
    tables as they were. *)
Lemma clear_solris_lookup_unfold c :
  clear_solris_lookup c
  = match execute (constrained c) DELETE_FROM_solris_lookup (store c) with
    | inr d => (Ok tt, leaves c d [DELETE_FROM_solris_lookup])
    | inl e =>
        (Raise (DBAPIError e),
         leaves c (store c)
           (if is_fk_message (sql_message e)
            then DELETE_FROM_solris_lookup
                 :: (TRUNCATE_TABLE <$> tables_to_clear)
                 ++ [DELETE_FROM_solris_lookup]
            else [DELETE_FROM_solris_lookup]))
    end.
Proof.
  unfold clear_solris_lookup, with_connection, try_except.
  fold truncate_or_skip.
  unfold bind at 1. unfold conn_execute at 1.
  cbn [txn view store constrained executed].
  destruct (execute (constrained c) DELETE_FROM_solris_lookup (store c))
    as [e|d] eqn:He; [|reflexivity].
  cbn [str]. destruct (is_fk_message (sql_message e)); [|reflexivity].
  unfold bind at 1. rewrite for_each_truncate_aborted.
  unfold bind, conn_commit, conn_execute.
  cbn [txn view store constrained executed]. rewrite He.
  unfold leaves. cbn [store constrained executed].
  rewrite <- !app_assoc. reflexivity.
Qed.

Lemma to_sql_solris_lookup_unfold df c :
  to_sql_solris_lookup df c
  = match execute (constrained c) (INSERT_INTO_solris_lookup df) (store c) with
    | inr d => (Ok tt, leaves c d [INSERT_INTO_solris_lookup df])
    | inl e =>
        (Raise (DBAPIError e), leaves c (store c) [INSERT_INTO_solris_lookup df])
    end.
Proof.
  unfold to_sql_solris_lookup, with_connection, bind, conn_execute, conn_commit.
  cbn [txn view store constrained executed].
  destruct (execute (constrained c) (INSERT_INTO_solris_lookup df) (store c));
    reflexivity.
Qed.

Lemma load_unfold csv custom_factors c :
  missing_columns (csv_columns csv) = [] ->
  load_solris_lookup_table csv custom_factors c
  = (clear_solris_lookup ;;;
     to_sql_solris_lookup
       (dropna (apply_custom_factors custom_factors (csv_rows csv))) ;;;
     ret (dropna (apply_custom_factors custom_factors (csv_rows csv)))) c.
Proof. unfold load_solris_lookup_table. intros ->. reflexivity. Qed.

(** What the loader does once the columns are there, by the outcome of
    the first DELETE. *)
Lemma load_by_first_delete csv custom_factors c :
  missing_columns (csv_columns csv) = [] ->
  let df := dropna (apply_custom_factors custom_factors (csv_rows csv)) in
  load_solris_lookup_table csv custom_factors c
  = match execute (constrained c) DELETE_FROM_solris_lookup (store c) with
    | inr d =>
        match execute (constrained c) (INSERT_INTO_solris_lookup df) d with
        | inr d' =>
            (Ok df, leaves c d' [DELETE_FROM_solris_lookup;
                                 INSERT_INTO_solris_lookup df])
        | inl e =>
            (Raise (DBAPIError e),
             leaves c d [DELETE_FROM_solris_lookup;
                         INSERT_INTO_solris_lookup df])
        end
    | inl e =>
        (Raise (DBAPIError e),
         leaves c (store c)
           (if is_fk_message (sql_message e)
            then DELETE_FROM_solris_lookup
                 :: (TRUNCATE_TABLE <$> tables_to_clear)
                 ++ [DELETE_FROM_solris_lookup]
            else [DELETE_FROM_solris_lookup]))
    end.
Proof.
  intros Hcols df. rewrite (load_unfold _ _ _ Hcols). fold df.
  unfold bind at 1. rewrite clear_solris_lookup_unfold.
  destruct (execute (constrained c) DELETE_FROM_solris_lookup (store c))
    as [e|d]; [reflexivity|].
  unfold bind at 1. rewrite to_sql_solris_lookup_unfold.
  unfold leaves. cbn [store constrained executed].
  destruct (execute (constrained c) (INSERT_INTO_solris_lookup df) d);
    unfold ret; rewrite <- !app_assoc; reflexivity.
Qed.

(** C1.  For a CSV with all required columns, with [df] the rows that
    survive the overrides and the null filter:
    - when dependent result rows exist, the first DELETE fails with a
      foreign-key violation; the loader then sends TRUNCATE for each of
      the four result tables and one more DELETE, as the protocol says,
      but on the same connection, whose transaction the failed DELETE has
      aborted: every TRUNCATE is rejected, [commit] ends the transaction
      without effect, and the retried DELETE fails as the first did.  The
      loader raises that foreign-key violation, inserts nothing, and
      leaves every table as it was;
    - when the first DELETE fails with a message that is not a
      foreign-key message, that error is raised again after the one
      statement, and the tables are as before;
    - when the first DELETE succeeds, nothing is truncated, no second
      DELETE is sent, and [df] is inserted in bulk;
    - so the loader returns only when no dependent result row exists. *)
Theorem reference_reload_protocol csv custom_factors c :
  missing_columns (csv_columns csv) = [] ->
  let df := dropna (apply_custom_factors custom_factors (csv_rows csv)) in
  (blocked c ->
   exists t,
     t ∈ constrained c
     /\ load_solris_lookup_table csv custom_factors c
        = (Raise (DBAPIError (ForeignKeyViolation t)),
           leaves c (store c)
             [DELETE_FROM_solris_lookup;
              TRUNCATE_TABLE biocapacity_results;
              TRUNCATE_TABLE carbon_sequestration_results;
              TRUNCATE_TABLE water_filtration_results;
              TRUNCATE_TABLE aesthetic_quality_results;
              DELETE_FROM_solris_lookup]))
  /\ (forall e,
        execute (constrained c) DELETE_FROM_solris_lookup (store c) = inl e ->
        is_fk_message (sql_message e) = false ->
        load_solris_lookup_table csv custom_factors c
        = (Raise (DBAPIError e), leaves c (store c) [DELETE_FROM_solris_lookup]))
  /\ (forall d,
        execute (constrained c) DELETE_FROM_solris_lookup (store c) = inr d ->
        load_solris_lookup_table csv custom_factors c
        = match execute (constrained c) (INSERT_INTO_solris_lookup df) d with
          | inr d' =>
              (Ok df, leaves c d' [DELETE_FROM_solris_lookup;
                                   INSERT_INTO_solris_lookup df])
          | inl e =>
              (Raise (DBAPIError e),
               leaves c d [DELETE_FROM_solris_lookup;
                           INSERT_INTO_solris_lookup df])
          end)
  /\ (forall df' c',
        load_solris_lookup_table csv custom_factors c = (Ok df', c') ->
        ~ blocked c
        /\ df' = df
        /\ executed c' = executed c ++ [DELETE_FROM_solris_lookup;
                                        INSERT_INTO_solris_lookup df]).
Proof.
  intros Hcols df. pose proof (load_by_first_delete csv custom_factors c Hcols)
    as Hload. cbv zeta in Hload. fold df in Hload.
  split; [|split; [|split]].
  - intros Hb. destruct (execute_delete_blocked _ Hb) as (t & Ht & He).
    exists t. split; [exact Ht|]. rewrite Hload, He.
    pose proof (is_fk_message_fk t) as Hfk. cbn [str] in Hfk. rewrite Hfk.
    reflexivity.
  - intros e He Hfk. rewrite Hload, He, Hfk. reflexivity.
  - intros d Hd. rewrite Hload, Hd. reflexivity.
  - intros df' c' Hok. rewrite Hload in Hok.
    destruct (execute (constrained c) DELETE_FROM_solris_lookup (store c))
      as [e|d] eqn:He; [discriminate Hok|].
    destruct (execute (constrained c) (INSERT_INTO_solris_lookup df) d);
      [discriminate Hok|].
    injection Hok as <- <-. split; [|split; reflexivity].
    intros Hb. destruct (execute_delete_blocked _ Hb) as (t & _ & He').
    congruence.
Qed.

(** ** The properties on sample data *)



Lemma aesthetic_rarity_binning_and_score_sample :
  exists rows,
    process_aesthetic_quality sample_df sample_lookup = Ok rows
    /\ forall r, r ∈ rows ->
       exists l, m_lookup (aes_src r) = Some l
         /\ aesthetic_quality_score r
            = Fin (naturalness l * dec 67 100 + qz (rarity_score r) * dec 33 100).
Proof.
  destruct (aesthetic_rarity_binning_and_score sample_df sample_lookup)
    as (Htotal & _ & Hrows & _).
  destruct Htotal as [rows Hok]; [num_neq|].
  exists rows. split; [exact Hok|]. intros r Hr.
  destruct (Hrows rows Hok r Hr) as (l & Hl & _ & _ & Hscore).
  exists l. split; assumption.
Defined.

(** C2, as stated, fails on a sheet with a code that the reference table
    does not have.  The sheet totals 11.50004 ha over its codes (17.50004
    ha with the row that has no code), of which code 1 has 2.00004 ha:
    17.39% of the run (11.43% of the sheet), rarity 2 (3) by the
    thresholds.  The calculator drops code 7 before it takes the total,
    divides by the 5.50004 ha that are left, gets 36.36% and stores
    rarity 1. *)
Lemma aesthetic_share_ignores_unmatched_area :
  exists rows r,
    process_aesthetic_quality sample_df sample_lookup = Ok rows
    /\ r ∈ rows
    /\ m_gridcode (aes_src r) = 1
    /\ area_hectares (aes_src r) = dec 200004 100000
    /\ nansum ((fun ka => Fin ka.2) <$> groupby_sum sample_df)
       = Fin (dec 1150004 100000)
    /\ nansum ((fun a => of_cell (SUM_Area_Ha a)) <$> sample_df)
       = Fin (dec 1750004 100000)
    /\ total_study_area (aes_src <$> rows) = Fin (dec 550004 100000)
    /\ aes_percentage_of_total r
       = Fin (percent_of (dec 550004 100000) (dec 200004 100000))
    /\ rarity_score r = 1
    /\ rarity_of (percent_of (dec 1150004 100000) (dec 200004 100000)) = 2
    /\ rarity_of (percent_of (dec 1750004 100000) (dec 200004 100000)) = 3.
Proof.
  destruct (process_aesthetic_quality sample_df sample_lookup)
    as [[|r rows]|e] eqn:E; try (vm_compute in E; discriminate E).
  exists (r :: rows), r. split; [reflexivity|]. split; [left|].
  vm_compute in E. injection E as <- <-.
  split; [reflexivity|]. split; [qc_eq|].
  repeat (split; [num_eq|]). num_eq.
Qed.

Lemma carbon_formulas_sample :
  exists r,
    r ∈ (process_carbon_sequestration sample_df sample_lookup).1
    /\ cs_area_hectares (save_carbon_row r)
       = round_dp 4 (area_hectares (carbon_src r))
    /\ (area_hectares (carbon_src r) = 0%Qc ->
        cs_ssc_density (save_carbon_row r) = Fin 0).
Proof.
  destruct (process_carbon_sequestration sample_df sample_lookup).1
    as [|r rows] eqn:E; [vm_compute in E; discriminate E|].
  exists r.
  assert (Hr : r ∈ (process_carbon_sequestration sample_df sample_lookup).1)
    by (rewrite E; left).
  rewrite <- E. split; [exact Hr|].
  destruct (carbon_formulas sample_df sample_lookup r Hr)
    as (_ & _ & _ & Ha & _ & Hz).
  split; assumption.
Defined.

(** C3, as stated, fails on a sheet whose area has more than four
    decimals: for code 1 with area 2.00004 the total carbon is
    1000 x 2.00004 and the stored ssc is 0.504, but the stored density is
    not 0.504 / 2.00004 rounded to 6 decimals (it is 0.504 / 2.0). *)
Lemma carbon_density_uses_rounded_area :
  exists r,
    r ∈ (process_carbon_sequestration sample_df sample_lookup).1
    /\ area_hectares (carbon_src r) = dec 200004 100000
    /\ total_carbon_tc r = Fin (qz 1000 * dec 200004 100000)
    /\ cs_ssc (save_carbon_row r) = Fin (dec 504 1000)
    /\ cs_ssc_density (save_carbon_row r) = Fin (dec 252 1000)
    /\ cs_ssc_density (save_carbon_row r)
       <> Fin (round_dp 6 (dec 504 1000 / area_hectares (carbon_src r))).
Proof.
  destruct (process_carbon_sequestration sample_df sample_lookup).1
    as [|r rows] eqn:E; [vm_compute in E; discriminate E|].
  exists r. split; [left|].
  vm_compute in E. injection E as <- _.
  split; [qc_eq|]. repeat (split; [num_eq|]). num_neq.
Qed.

Lemma discounted_social_cost_series_sample :
  exists series,
    plot_discounted_social_cost (qz 504) sample_scc 2020 2024 (dec 2 100)
    = Ok series
    /\ length series = 5%nat.
Proof.
  destruct (discounted_social_cost_series (qz 504) sample_scc 2020 2024
              (dec 2 100)) as (series & Hok & Hlen & _).
  - qc_neq.
  - intros year Hyear. exists 2020. split; [|lia].
    vm_compute. eauto.
  - exists series. split; [exact Hok|exact Hlen].
Defined.

Lemma cost_projection_before_schedule_raises_sample :
  plot_discounted_social_cost (qz 504) late_scc 2020 2023 (dec 2 100)
  = Raise (ValueError "max() arg is an empty sequence").
Proof.
  apply (cost_projection_before_schedule_raises (qz 504) late_scc 2020 2023
           (dec 2 100)).
  exists 2020. split; [lia|]. split; [reflexivity|].
  intros y [v Hv]. unfold late_scc, scc_dict in Hv. cbn [foldl fst snd] in Hv.
  destruct (decide (y = 2022)) as [->|H22]; [lia|].
  destruct (decide (y = 2021)) as [->|H21]; [lia|].
  rewrite !lookup_insert_ne, lookup_empty in Hv by congruence. discriminate Hv.
Defined.


Lemma missing_reference_policies_sample :
  (exists r, r ∈ (process_biocapacity_data sample_df sample_lookup).1
             /\ m_gridcode (bio_src r) = 7)
  /\ (exists r, r ∈ (process_carbon_sequestration sample_df sample_lookup).1
                /\ m_gridcode (carbon_src r) = 7).
Proof.
  destruct (missing_reference_policies sample_df sample_lookup 7)
    as ((Hb & _) & (Hc & _) & _).
  - by_decide.
  - by_decide.
  - split; assumption.
Defined.

(** C7, as stated, fails for the carbon calculator: the row it keeps for
    the unknown code 7 has no lookup columns, yet its total carbon, its
    social cost and its percentage are 0, not null. *)
Lemma carbon_unmatched_row_is_zero_not_null :
  exists r,
    r ∈ (process_carbon_sequestration sample_df sample_lookup).1
    /\ m_gridcode (carbon_src r) = 7
    /\ m_lookup (carbon_src r) = None
    /\ total_carbon_tc r = Fin 0 /\ isna (total_carbon_tc r) = false
    /\ ssc r = Fin 0 /\ isna (ssc r) = false
    /\ carbon_percentage_of_total r = Fin 0
    /\ isna (carbon_percentage_of_total r) = false.
Proof.
  destruct (process_carbon_sequestration sample_df sample_lookup).1
    as [|r1 [|r2 [|r rows]]] eqn:E; try (vm_compute in E; discriminate E).
  exists r. split; [do 2 right; left|].
  vm_compute in E. injection E as _ _ <- _.
  repeat split; num_eq.
Qed.

Lemma water_keeps_unmatched_codes_sample :
  exists r, r ∈ (process_water_filtration sample_df sample_lookup sample_wf).1
            /\ m_gridcode (water_src r) = 7.
Proof.
  destruct (water_keeps_unmatched_codes sample_df sample_lookup sample_wf 7)
    as (Hr & _).
  - by_decide.
  - by_decide.
  - intros w Hw. unfold sample_wf in Hw.
    apply elem_of_cons in Hw as [->|Hw]; [discriminate|].
    apply list_elem_of_singleton in Hw as ->. discriminate.
  - exact Hr.
Defined.

(** C9, as stated, fails when the wetland-value table has a row with an
    empty type name: the null class name of the unknown code 7 is joined
    to that row, and the row gets 7 per hectare and a total of 42. *)
Lemma water_unmatched_code_joins_unnamed_wetland :
  exists r,
    r ∈ (process_water_filtration sample_df sample_lookup unnamed_wf).1
    /\ m_gridcode (water_src r) = 7
    /\ col_solris_class (water_src r) = None
    /\ wf_value_per_ha r = Fin (qz 7)
    /\ total_wf_value r = Fin (qz 42)
    /\ wf_value_per_ha r <> Fin 0
    /\ total_wf_value r <> Fin 0.
Proof.
  destruct (process_water_filtration sample_df sample_lookup unnamed_wf).1
    as [|r1 [|r2 [|r rows]]] eqn:E; try (vm_compute in E; discriminate E).
  exists r. split; [do 2 right; left|].
  vm_compute in E. injection E as _ _ <- _.
  split; [reflexivity|]. split; [reflexivity|].
  split; [num_eq|]. split; [num_eq|]. split; num_neq.
Qed.

Lemma custom_factors_patch_only_conversion_factor_sample :
  length (apply_custom_factors sample_custom_factors (csv_rows sample_csv))
  = 3%nat
  /\ apply_custom_factors sample_custom_factors (csv_rows sample_csv)
     = apply_custom_factors
         [(2, {[ "biocapacity_conversion_factor"%string := Some (dec 6 10);
                 "naturalness"%string := Some (qz 1) ]})]
         (csv_rows sample_csv).
Proof.
  destruct (custom_factors_patch_only_conversion_factor sample_custom_factors
              (csv_rows sample_csv)) as ((Hlen & _) & _ & Habsent).
  split; [exact Hlen|].
  apply (Habsent [(2, {[ "biocapacity_conversion_factor"%string
                          := Some (dec 6 10);
                         "naturalness"%string := Some (qz 1) ]})] [] 33
           {[ "biocapacity_conversion_factor"%string := Some (dec 6 10) ]}).
  - reflexivity.
  - by_decide.
Defined.

Lemma reference_reload_protocol_sample :
  blocked sample_conn
  /\ exists t,
       load_solris_lookup_table sample_csv sample_custom_factors sample_conn
       = (Raise (DBAPIError (ForeignKeyViolation t)),
          leaves sample_conn sample_store
            [DELETE_FROM_solris_lookup;
             TRUNCATE_TABLE biocapacity_results;
             TRUNCATE_TABLE carbon_sequestration_results;
             TRUNCATE_TABLE water_filtration_results;
             TRUNCATE_TABLE aesthetic_quality_results;
             DELETE_FROM_solris_lookup]).
Proof.
  assert (Hb : blocked sample_conn).
  { exists sample_lookup, biocapacity_results.
    split; [reflexivity|]. split; [left|vm_compute; reflexivity]. }
  split; [exact Hb|].
  destruct (reference_reload_protocol sample_csv sample_custom_factors
              sample_conn eq_refl) as [H _].
  destruct (H Hb) as (t & _ & Hload).
  exists t. exact Hload.
Defined.

(** * Further properties *)

(** ** Schema, and dropping of tables *)

Lemma rows_of_set_rows t t' v d :
  rows_of t' (set_rows t v d) = if decide (t' = t) then v else rows_of t' d.
Proof. destruct t, t'; reflexivity. Qed.

Lemma solris_lookup_set_rows t v d :
  solris_lookup (set_rows t v d) = solris_lookup d.
Proof. destruct t; reflexivity. Qed.

Lemma create_database_schema_tables d :
  solris_lookup (create_database_schema d)
  = Some (default [] (solris_lookup d))
  /\ forall t, rows_of t (create_database_schema d)
               = Some (default [] (rows_of t d)).
Proof.
  destruct d as [l b c w a].
  split; [|intros t]; destruct l, b, c, w, a; try destruct t; reflexivity.
Qed.

(** X1.  After [create_database_schema] all five tables exist; a table that
    existed keeps its rows, one that did not is empty; and running it a
    second time changes nothing. *)
Theorem create_database_schema_idempotent d :
  all_tables_exist (create_database_schema d)
  /\ (forall rows, solris_lookup d = Some rows ->
        solris_lookup (create_database_schema d) = Some rows)
  /\ (forall t rows, rows_of t d = Some rows ->
        rows_of t (create_database_schema d) = Some rows)
  /\ (solris_lookup d = None ->
        solris_lookup (create_database_schema d) = Some [])
  /\ (forall t, rows_of t d = None ->
        rows_of t (create_database_schema d) = Some [])
  /\ create_database_schema (create_database_schema d)
     = create_database_schema d.
Proof.
  destruct (create_database_schema_tables d) as [Hl Ht].
  repeat split.
  - rewrite Hl. eauto.
  - intros t. rewrite Ht. eauto.
  - intros rows H. rewrite Hl, H. reflexivity.
  - intros t rows H. rewrite Ht, H. reflexivity.
  - intros H. rewrite Hl, H. reflexivity.
  - intros t H. rewrite Ht, H. reflexivity.
  - destruct d as [l b c w a]. destruct l, b, c, w, a; reflexivity.
Qed.

Lemma create_database_schema_idempotent_sample :
  rows_of carbon_sequestration_results (create_database_schema sample_store)
  = Some []
  /\ rows_of biocapacity_results (create_database_schema sample_store)
     = rows_of biocapacity_results sample_store.
Proof.
  destruct (create_database_schema_idempotent sample_store)
    as (_ & _ & Hkeep & _ & Hnew & _).
  split; [apply Hnew; reflexivity|]. apply Hkeep. reflexivity.
Defined.

Lemma table_map_lookup mode t :
  table_map !! mode = Some t <->
  (mode = "biocapacity"%string /\ t = biocapacity_results)
  \/ (mode = "carbon"%string /\ t = carbon_sequestration_results)
  \/ (mode = "carbon_sequestration"%string
      /\ t = carbon_sequestration_results)
  \/ (mode = "water"%string /\ t = water_filtration_results)
  \/ (mode = "water_filtration"%string /\ t = water_filtration_results)
  \/ (mode = "aesthetic_quality"%string /\ t = aesthetic_quality_results).
Proof.
  unfold table_map. cbn [list_to_map foldr fst snd]. split.
  - intros H.
    repeat match type of H with
           | <[?k:=_]> _ !! _ = _ =>
               let Hne := fresh "Hne" in
               destruct (decide (mode = k)) as [->|Hne];
               [rewrite lookup_insert_eq in H; injection H as <-; naive_solver
               |rewrite lookup_insert_ne in H by congruence]
           end.
    rewrite lookup_empty in H. discriminate.
  - intros [[-> ->]|[[-> ->]|[[-> ->]|[[-> ->]|[[-> ->]|[-> ->]]]]]];
      vm_compute; reflexivity.
Qed.

(** X2.  [clear_results_for_mode] raises [ValueError] for every mode other
    than its six keys (among them "aesthetic", the name
    [save_results_to_database] uses, and "reindex"); for a key it drops the
    mapped table and nothing else, and fails when that table does not
    exist.  "carbon" and "carbon_sequestration", and "water" and
    "water_filtration", are the same table. *)
Theorem clear_results_for_mode_drops_one_table mode d :
  (table_map !! mode = None ->
   clear_results_for_mode mode d = inl (UnknownMode mode))
  /\ (forall t, table_map !! mode = Some t ->
      (rows_of t d = None ->
       clear_results_for_mode mode d
       = inl (DropFailed (NoSuchTable (table_name t))))
      /\ (is_Some (rows_of t d) ->
          exists d', clear_results_for_mode mode d = inr d'
            /\ rows_of t d' = None
            /\ solris_lookup d' = solris_lookup d
            /\ forall t', t' <> t -> rows_of t' d' = rows_of t' d))
  /\ (table_map !! mode = None <-> mode ∉ known_modes)
  /\ table_map !! "aesthetic"%string = None
  /\ table_map !! "reindex"%string = None
  /\ table_map !! "carbon"%string = table_map !! "carbon_sequestration"%string
  /\ table_map !! "water"%string = table_map !! "water_filtration"%string.
Proof.
  split; [|split; [|split]].
  - intros H. unfold clear_results_for_mode. rewrite H. reflexivity.
  - intros t Ht. unfold clear_results_for_mode, drop_results. rewrite Ht.
    split.
    + intros ->. reflexivity.
    + intros [rows ->]. eexists. split; [reflexivity|].
      rewrite solris_lookup_set_rows. split; [|split; [reflexivity|]].
      * rewrite rows_of_set_rows. case_decide; [reflexivity|contradiction].
      * intros t' Hne. rewrite rows_of_set_rows.
        case_decide; [contradiction|reflexivity].
  - split.
    + intros Hnone Hin. unfold known_modes in Hin.
      repeat (apply elem_of_cons in Hin as [->|Hin];
              [vm_compute in Hnone; discriminate Hnone|]).
      inversion Hin.
    + intros Hnot. destruct (table_map !! mode) as [t|] eqn:Ht;
        [|reflexivity].
      exfalso. apply Hnot. unfold known_modes.
      apply table_map_lookup in Ht
        as [[-> _]|[[-> _]|[[-> _]|[[-> _]|[[-> _]|[-> _]]]]]];
        repeat first [left | right].
  - repeat split; vm_compute; reflexivity.
Qed.

Lemma clear_results_for_mode_sample :
  clear_results_for_mode "aesthetic" sample_store
  = inl (UnknownMode "aesthetic")
  /\ clear_results_for_mode "carbon" sample_store
     = inl (DropFailed (NoSuchTable "carbon_sequestration_results"))
  /\ exists d', clear_results_for_mode "biocapacity" sample_store = inr d'
                /\ rows_of biocapacity_results d' = None.
Proof.
  destruct (clear_results_for_mode_drops_one_table "aesthetic" sample_store)
    as (Hu & _).
  destruct (clear_results_for_mode_drops_one_table "carbon" sample_store)
    as (_ & Hc & _).
  destruct (clear_results_for_mode_drops_one_table "biocapacity" sample_store)
    as (_ & Hb & _).
  split; [apply Hu; vm_compute; reflexivity|]. split.
  - apply (Hc carbon_sequestration_results); vm_compute; reflexivity.
  - destruct (Hb biocapacity_results) as [_ H]; [vm_compute; reflexivity|].
    destruct H as (d' & Hd & Hr & _); [vm_compute; eauto|]. eauto.
Defined.

Lemma clear_all_data_all_exist d :
  all_tables_exist d -> clear_all_data d = inr no_tables.
Proof.
  destruct d as [l b c w a].
  intros [[rows Hl] Ht]. cbn in Hl. subst l.
  destruct (Ht biocapacity_results) as [? Hb].
  destruct (Ht carbon_sequestration_results) as [? Hc].
  destruct (Ht water_filtration_results) as [? Hw].
  destruct (Ht aesthetic_quality_results) as [? Ha].
  cbn in Hb, Hc, Hw, Ha. subst. reflexivity.
Qed.

(** X3.  [clear_all_data] succeeds exactly when all five tables exist, and
    then no table is left. *)
Theorem clear_all_data_needs_all_tables d :
  (all_tables_exist d -> clear_all_data d = inr no_tables)
  /\ (forall d', clear_all_data d = inr d' ->
        all_tables_exist d /\ d' = no_tables).
Proof.
  split; [apply clear_all_data_all_exist|]. destruct d as [l b c w a].
  - intros d' H. destruct a, c, w, b, l; try discriminate H.
    injection H as <-. split; [|reflexivity].
    split; [cbn; eauto|]. intros t. destruct t; cbn; eauto.
Qed.

Lemma clear_all_data_sample :
  clear_all_data (create_database_schema sample_store) = inr no_tables.
Proof.
  apply (clear_all_data_needs_all_tables (create_database_schema sample_store)).
  split; [vm_compute; eauto|]. intros t. destruct t; vm_compute; eauto.
Defined.

(** X4.  In the order [main] uses, schema first, each of the four modes of
    [main] clears without error, and so does [clear_all_data]. *)
Theorem clear_after_create_database_schema d :
  (forall mode, mode ∈ main_modes ->
     exists d', clear_results_for_mode mode (create_database_schema d) = inr d')
  /\ clear_all_data (create_database_schema d) = inr no_tables.
Proof.
  destruct (create_database_schema_tables d) as [Hl Ht]. split.
  - intros mode Hmode. unfold clear_results_for_mode, drop_results.
    assert (Hk : exists t, table_map !! mode = Some t).
    { unfold main_modes in Hmode.
      repeat (apply elem_of_cons in Hmode as [->|Hmode];
              [eexists; vm_compute; reflexivity|]).
      inversion Hmode. }
    destruct Hk as [t ->]. rewrite Ht. eauto.
  - apply clear_all_data_all_exist. split.
    + rewrite Hl. eauto.
    + intros t. rewrite Ht. eauto.
Qed.

(** ** Reference table loader *)

Lemma apply_custom_factor_fmap df item :
  apply_custom_factor df item
  = (fun r =>
       match item.2 !! "biocapacity_conversion_factor"%string with
       | Some v => if decide (csv_solris_code r = Some item.1)
                   then set_conversion_factor v r else r
       | None => r
       end) <$> df.
Proof.
  unfold apply_custom_factor.
  destruct (item.2 !! "biocapacity_conversion_factor"%string);
    [reflexivity|]. symmetry. apply list_fmap_id.
Qed.

Lemma patched_factor_cons_ne c f cf r :
  csv_solris_code r <> Some c ->
  patched_factor ((c, f) :: cf) r = patched_factor cf r.
Proof.
  intros Hne. unfold patched_factor.
  destruct (csv_solris_code r) as [c'|]; [|reflexivity].
  cbn [list_to_map foldr fst snd]. rewrite lookup_insert_ne by congruence.
  reflexivity.
Qed.

Lemma patched_factor_absent c cf r :
  c ∉ cf.*1 -> csv_solris_code r = Some c ->
  patched_factor cf r = csv_biocapacity_conversion_factor r.
Proof.
  intros Hnot Hc. unfold patched_factor. rewrite Hc.
  rewrite (proj1 (not_elem_of_list_to_map _ c)) by exact Hnot. reflexivity.
Qed.

Lemma set_conversion_factor_id r :
  set_conversion_factor (csv_biocapacity_conversion_factor r) r = r.
Proof. destruct r; reflexivity. Qed.

Lemma apply_custom_factors_patched custom_factors df :
  NoDup custom_factors.*1 ->
  apply_custom_factors custom_factors df
  = (fun r => set_conversion_factor (patched_factor custom_factors r) r)
      <$> df.
Proof.
  unfold apply_custom_factors. revert df.
  induction custom_factors as [|[c f] cf IH]; intros df Hnd; cbn [foldl].
  - unfold patched_factor. cbn [list_to_map foldr].
    erewrite list_fmap_ext; [symmetry; apply list_fmap_id|].
    intros i r _. cbn. destruct (csv_solris_code r);
      rewrite ?lookup_empty; apply set_conversion_factor_id.
  - rewrite fmap_cons in Hnd. apply NoDup_cons in Hnd as [Hc Hnd].
    rewrite (IH _ Hnd), apply_custom_factor_fmap, <- list_fmap_compose.
    apply list_fmap_ext. intros i r _. cbn [compose fst snd].
    destruct (decide (csv_solris_code r = Some c)) as [Heq|Hne].
    + unfold patched_factor at 2. rewrite Heq.
      cbn [list_to_map foldr fst snd]. rewrite lookup_insert_eq.
      destruct (f !! "biocapacity_conversion_factor"%string) as [v|];
        cbn [default].
      * rewrite (patched_factor_absent c cf) by (assumption || (destruct r; exact Heq)).
        destruct r; reflexivity.
      * rewrite (patched_factor_absent c cf) by assumption. reflexivity.
    + rewrite (patched_factor_cons_ne _ _ _ _ Hne).
      destruct (f !! "biocapacity_conversion_factor"%string); reflexivity.
Qed.

(** X5.  For an override map (a dict: one entry per code), each source row
    comes out with the conversion factor of the entry for its code when
    that entry has the key biocapacity_conversion_factor, and unchanged
    otherwise; the rows keep their order. *)
Theorem custom_factors_set_the_factor custom_factors df :
  NoDup custom_factors.*1 ->
  forall i r, df !! i = Some r ->
    apply_custom_factors custom_factors df !! i
    = Some (set_conversion_factor (patched_factor custom_factors r) r)
    /\ (forall c factors v,
          csv_solris_code r = Some c ->
          (c, factors) ∈ custom_factors ->
          factors !! "biocapacity_conversion_factor"%string = Some v ->
          patched_factor custom_factors r = v)
    /\ ((forall c, csv_solris_code r = Some c -> c ∉ custom_factors.*1) ->
        patched_factor custom_factors r
        = csv_biocapacity_conversion_factor r).
Proof.
  intros Hnd i r Hi. split; [|split].
  - rewrite (apply_custom_factors_patched _ _ Hnd), list_lookup_fmap, Hi.
    reflexivity.
  - intros c factors v Hc Hin Hv. unfold patched_factor. rewrite Hc.
    rewrite (proj1 (elem_of_list_to_map _ c factors Hnd) Hin), Hv.
    reflexivity.
  - intros Hnot. unfold patched_factor.
    destruct (csv_solris_code r) as [c|]; [|reflexivity].
    rewrite (proj1 (not_elem_of_list_to_map _ c)) by (apply Hnot; reflexivity).
    reflexivity.
Qed.

Lemma custom_factors_set_the_factor_sample :
  exists r,
    apply_custom_factors sample_custom_factors (csv_rows sample_csv) !! 1%nat
    = Some r
    /\ csv_biocapacity_conversion_factor r = Some (dec 6 10).
Proof.
  destruct (csv_rows sample_csv !! 1%nat) as [r0|] eqn:E;
    [|vm_compute in E; discriminate E].
  destruct (custom_factors_set_the_factor sample_custom_factors
              (csv_rows sample_csv)) with (i := 1%nat) (r := r0)
    as (Hrow & Hval & _).
  - by_decide.
  - exact E.
  - eexists. split; [exact Hrow|].
    vm_compute in E. injection E as <-.
    rewrite (Hval 2 {[ "biocapacity_conversion_factor"%string
                        := Some (dec 6 10);
                       "naturalness"%string := Some (qz 1) ]}
               (Some (dec 6 10))).
    + reflexivity.
    + reflexivity.
    + left.
    + vm_compute. reflexivity.
Defined.

Lemma complete_row_set_factor v r :
  complete_row (set_conversion_factor v r)
  = f ← v;
    l ← complete_row (set_conversion_factor (Some f) r);
    Some l.
Proof.
  destruct v as [f|]; cbn [mbind option_bind].
  - destruct (complete_row _); reflexivity.
  - unfold complete_row. cbn.
    destruct (csv_solris_code r), (csv_solris_class r),
      (csv_biocapacity_category r); reflexivity.
Qed.

Lemma elem_of_dropna df l :
  l ∈ dropna df <-> exists r, r ∈ df /\ complete_row r = Some l.
Proof. unfold dropna. apply list_elem_of_omap. Qed.

Lemma complete_row_code r l :
  complete_row r = Some l -> csv_solris_code r = Some (solris_code l)
  /\ csv_biocapacity_conversion_factor r
     = Some (biocapacity_conversion_factor l).
Proof.
  unfold complete_row. destruct r as [c cl ca f lu ag bg so de na ds].
  cbn. destruct c, cl, ca, f, lu, ag, bg, so, de, na, ds; cbn;
    try discriminate.
  intros [= <-]. auto.
Qed.

(** X6.  The overrides are applied before the null filter.  A source row
    whose conversion factor is the only thing the filter would object to is
    loaded, with the override's factor, when the override map has a
    non-null factor for its code; and when the override's factor is null,
    no row of that code is loaded. *)
Theorem custom_factors_apply_before_dropna custom_factors df c factors :
  NoDup custom_factors.*1 ->
  (c, factors) ∈ custom_factors ->
  (forall v r l,
     factors !! "biocapacity_conversion_factor"%string = Some (Some v) ->
     r ∈ df -> csv_solris_code r = Some c ->
     complete_row (set_conversion_factor (Some v) r) = Some l ->
     l ∈ dropna (apply_custom_factors custom_factors df)
     /\ biocapacity_conversion_factor l = v)
  /\ (factors !! "biocapacity_conversion_factor"%string = Some None ->
      forall l, l ∈ dropna (apply_custom_factors custom_factors df) ->
                solris_code l <> c).
Proof.
  intros Hnd Hin.
  assert (Hpatch : forall r w,
            factors !! "biocapacity_conversion_factor"%string = Some w ->
            csv_solris_code r = Some c ->
            patched_factor custom_factors r = w).
  { intros r w Hw Hc. unfold patched_factor. rewrite Hc.
    rewrite (proj1 (elem_of_list_to_map _ c factors Hnd) Hin), Hw.
    reflexivity. }
  rewrite (apply_custom_factors_patched _ _ Hnd). split.
  - intros v r l Hv Hr Hc Hl. split.
    + apply elem_of_dropna. eexists. split.
      * apply list_elem_of_fmap. exists r. split; [reflexivity|exact Hr].
      * cbn. rewrite (Hpatch r _ Hv Hc). exact Hl.
    + apply complete_row_code in Hl as [_ Hf]. destruct r; cbn in Hf.
      congruence.
  - intros Hv l Hl Hcode. apply elem_of_dropna in Hl as (r' & Hr' & Hl).
    apply list_elem_of_fmap in Hr' as (r & -> & Hr).
    pose proof (complete_row_code _ _ Hl) as [Hc Hf].
    assert (Hc' : csv_solris_code r = Some c).
    { destruct r; cbn in Hc |- *. congruence. }
    rewrite (Hpatch r _ Hv Hc') in Hf. destruct r; discriminate Hf.
Qed.

Lemma custom_factors_apply_before_dropna_sample :
  Forall (fun l => solris_code l <> 2)
    (dropna (apply_custom_factors
               [(2, {[ "biocapacity_conversion_factor"%string := None ]})]
               (csv_rows sample_csv))).
Proof.
  apply Forall_forall.
  apply (custom_factors_apply_before_dropna
           [(2, {[ "biocapacity_conversion_factor"%string := None ]})]
           (csv_rows sample_csv) 2
           {[ "biocapacity_conversion_factor"%string := None ]}).
  - by_decide.
  - left.
  - vm_compute. reflexivity.
Defined.









(** ** Aggregation by code *)

Lemma agg_insert_sorted k a acc :
  StronglySorted Z.lt acc.*1 -> StronglySorted Z.lt (agg_insert k a acc).*1.
Proof.
  induction acc as [|[k0 a0] acc IH]; cbn [agg_insert]; intros Hs.
  - repeat constructor.
  - rewrite fmap_cons in Hs. apply StronglySorted_inv in Hs as [Hs Hall].
    cbn [fst] in Hall.
    destruct (k <? k0) eqn:Hlt; [|destruct (k =? k0) eqn:Heq].
    + apply Z.ltb_lt in Hlt. rewrite !fmap_cons. cbn [fst].
      constructor; [constructor; assumption|].
      constructor; [exact Hlt|].
      eapply Forall_impl; [exact Hall|]. intros z Hz. cbn in Hz. lia.
    + rewrite fmap_cons. cbn [fst]. constructor; assumption.
    + apply Z.ltb_ge in Hlt. apply Z.eqb_neq in Heq.
      rewrite fmap_cons. cbn [fst]. constructor; [apply IH, Hs|].
      apply Forall_forall. intros z Hz. apply agg_insert_keys in Hz as [->|Hz].
      * lia.
      * rewrite Forall_forall in Hall. apply Hall, Hz.
Qed.

Lemma groupby_sum_snoc df r :
  groupby_sum (df ++ [r])
  = match gridcode r with
    | None => groupby_sum df
    | Some k => agg_insert k (default 0%Qc (SUM_Area_Ha r)) (groupby_sum df)
    end.
Proof. unfold groupby_sum. rewrite foldl_app. reflexivity. Qed.

Lemma groupby_sum_sorted df : StronglySorted Z.lt (groupby_sum df).*1.
Proof.
  induction df as [|r df IH] using rev_ind.
  - constructor.
  - rewrite groupby_sum_snoc. destruct (gridcode r); [|exact IH].
    apply agg_insert_sorted, IH.
Qed.

Lemma area_in_cons k ka acc :
  area_in k (ka :: acc)
  = if decide (ka.1 = k) then (ka.2 + area_in k acc)%Qc else area_in k acc.
Proof. reflexivity. Qed.

Lemma area_of_cons k r df :
  area_of k (r :: df)
  = if decide (gridcode r = Some k)
    then (default 0%Qc (SUM_Area_Ha r) + area_of k df)%Qc else area_of k df.
Proof. reflexivity. Qed.

Lemma area_in_agg_insert k' k a acc :
  area_in k' (agg_insert k a acc)
  = ((if decide (k = k') then a else 0) + area_in k' acc)%Qc.
Proof.
  induction acc as [|[k0 a0] acc IH]; cbn [agg_insert].
  - rewrite area_in_cons. cbn [fst snd].
    change (area_in k' []) with 0%Qc. case_decide; ring.
  - destruct (k <? k0) eqn:Hlt; [|destruct (k =? k0) eqn:Heq].
    + rewrite (area_in_cons k' (k, a)). cbn [fst snd]. case_decide; ring.
    + apply Z.eqb_eq in Heq. subst k0. rewrite !area_in_cons. cbn [fst snd].
      case_decide; ring.
    + rewrite !area_in_cons, IH. cbn [fst snd].
      repeat case_decide; ring.
Qed.

Lemma area_of_app k l1 l2 :
  area_of k (l1 ++ l2) = (area_of k l1 + area_of k l2)%Qc.
Proof.
  induction l1 as [|r l1 IH].
  - change (area_of k []) with 0%Qc. cbn [app]. ring.
  - rewrite <- app_comm_cons, !area_of_cons, IH. case_decide; ring.
Qed.

Lemma area_in_groupby_sum k df : area_in k (groupby_sum df) = area_of k df.
Proof.
  induction df as [|r df IH] using rev_ind; [reflexivity|].
  rewrite groupby_sum_snoc, area_of_app, area_of_cons.
  change (area_of k []) with 0%Qc.
  destruct (gridcode r) as [k0|].
  - rewrite area_in_agg_insert, IH.
    destruct (decide (k0 = k)) as [->|Hne].
    + case_decide; [ring|congruence].
    + case_decide; [congruence|ring].
  - rewrite IH. case_decide; [discriminate|ring].
Qed.

Lemma area_in_above k acc :
  Forall (fun z => k < z) acc.*1 -> area_in k acc = 0%Qc.
Proof.
  induction acc as [|[k1 a1] acc IH]; intros Hall; [reflexivity|].
  rewrite fmap_cons in Hall. apply Forall_cons in Hall as [Hk Hall].
  rewrite area_in_cons. cbn [fst snd] in *.
  case_decide; [lia|apply IH, Hall].
Qed.

Lemma area_in_sorted k a acc :
  StronglySorted Z.lt acc.*1 -> (k, a) ∈ acc -> area_in k acc = a.
Proof.
  induction acc as [|[k0 a0] acc IH]; intros Hs Hin; [inversion Hin|].
  rewrite fmap_cons in Hs. apply StronglySorted_inv in Hs as [Hs Hall].
  cbn [fst] in Hall. rewrite area_in_cons. cbn [fst snd].
  apply elem_of_cons in Hin as [[= <- <-]|Hin].
  - case_decide; [|congruence]. rewrite (area_in_above _ _ Hall). ring.
  - case_decide as Hd.
    + subst k0. rewrite Forall_forall in Hall.
      assert (k < k); [|lia]. apply Hall, list_elem_of_fmap.
      exists (k, a). split; [reflexivity|exact Hin].
    + apply IH; assumption.
Qed.

Lemma groupby_sum_areas df k a :
  (k, a) ∈ groupby_sum df <-> Some k ∈ gridcode <$> df /\ a = area_of k df.
Proof.
  split.
  - intros Hin. split.
    + apply groupby_sum_keys, list_elem_of_fmap. exists (k, a). auto.
    + rewrite <- area_in_groupby_sum. symmetry.
      apply area_in_sorted; [apply groupby_sum_sorted|exact Hin].
  - intros [Hk ->]. apply groupby_sum_keys, list_elem_of_fmap in Hk
      as ([k' a] & Hk & Hin). cbn in Hk. subst k'.
    rewrite <- area_in_groupby_sum.
    rewrite (area_in_sorted k a _ (groupby_sum_sorted df) Hin). exact Hin.
Qed.

(** X8.  The aggregation by code gives one row per distinct code of the
    sheet, in increasing code order; rows without a code are left out; and
    the area of a code is the sum of the areas of its rows, an empty area
    counting for 0 (duplicate codes are summed, not rejected). *)
Theorem groupby_sum_one_row_per_code df :
  StronglySorted Z.lt (groupby_sum df).*1
  /\ (forall k, k ∈ (groupby_sum df).*1 <-> Some k ∈ gridcode <$> df)
  /\ (forall k a, (k, a) ∈ groupby_sum df <->
        Some k ∈ gridcode <$> df /\ a = area_of k df).
Proof.
  split; [apply groupby_sum_sorted|]. split; [apply groupby_sum_keys|].
  intros k a. apply groupby_sum_areas.
Qed.

Lemma groupby_sum_one_row_per_code_sample :
  (2, area_of 2 sample_df) ∈ groupby_sum sample_df
  /\ area_of 2 sample_df = dec 35 10.
Proof.
  destruct (groupby_sum_one_row_per_code sample_df) as (_ & _ & H).
  split; [|qc_eq]. apply H. split; [by_decide|reflexivity].
Defined.

(** ** The join on code *)

Lemma filter_key_NoDup (lookup : list lookup_row) k :
  NoDup (solris_code <$> lookup) ->
  filter (fun l => solris_code l = k) lookup = []
  \/ exists l, filter (fun l => solris_code l = k) lookup = [l].
Proof.
  induction lookup as [|l0 lookup IH]; intros Hnd; [left; reflexivity|].
  rewrite fmap_cons in Hnd. apply NoDup_cons in Hnd as [Hnot Hnd].
  rewrite filter_cons. case_decide as Hk.
  - right. exists l0. f_equal.
    destruct (IH Hnd) as [H|[l H]]; [exact H|].
    exfalso. apply Hnot. assert (Hin : l ∈ [l]) by left. rewrite <- H in Hin.
    apply list_elem_of_filter in Hin as [Hl Hin].
    apply list_elem_of_fmap. exists l. split; [congruence|exact Hin].
  - apply IH, Hnd.
Qed.

Lemma merge_left_codes agg lookup :
  NoDup (solris_code <$> lookup) ->
  m_gridcode <$> merge_left agg lookup = agg.*1.
Proof.
  intros Hnd. unfold merge_left.
  induction agg as [|ka agg IH]; [reflexivity|].
  rewrite bind_cons, fmap_app, IH, fmap_cons. cbn [app].
  destruct (filter_key_NoDup lookup ka.1 Hnd) as [->|[l ->]]; reflexivity.
Qed.

Lemma merge_left_row df lookup m :
  m ∈ merge_left (groupby_sum df) lookup ->
  Some (m_gridcode m) ∈ gridcode <$> df
  /\ area_hectares m = area_of (m_gridcode m) df
  /\ forall l, m_lookup m = Some l ->
               l ∈ lookup /\ solris_code l = m_gridcode m.
Proof.
  intros Hm. apply elem_of_merge_left in Hm as ([k a] & Hka & Hg & Ha & Hl).
  cbn [fst snd] in *. rewrite Hg, Ha.
  apply groupby_sum_areas in Hka as [Hk ->].
  split; [exact Hk|]. split; [reflexivity|].
  intros l Hsome. destruct Hl as [[Hn _]|(l' & Hin & Hc & Hs)]; [congruence|].
  assert (l' = l) by congruence. subst l'. auto.
Qed.

(** X9.  When the reference table has one row per code, the biocapacity and
    the carbon tables have exactly one row per distinct code of the sheet,
    in increasing code order; the area of a row is the summed area of its
    code, and the lookup columns of a row, when not null, are those of the
    reference row of that very code. *)
Theorem calculators_one_row_per_code df lookup :
  NoDup (solris_code <$> lookup) ->
  let bio_codes :=
    (fun r => m_gridcode (bio_src r))
      <$> (process_biocapacity_data df lookup).1 in
  let carbon_codes :=
    (fun r => m_gridcode (carbon_src r))
      <$> (process_carbon_sequestration df lookup).1 in
  StronglySorted Z.lt bio_codes
  /\ carbon_codes = bio_codes
  /\ (forall k, k ∈ bio_codes <-> Some k ∈ gridcode <$> df)
  /\ (forall r, r ∈ (process_biocapacity_data df lookup).1 ->
        area_hectares (bio_src r) = area_of (m_gridcode (bio_src r)) df
        /\ forall l, m_lookup (bio_src r) = Some l ->
             l ∈ lookup /\ solris_code l = m_gridcode (bio_src r))
  /\ (forall r, r ∈ (process_carbon_sequestration df lookup).1 ->
        area_hectares (carbon_src r) = area_of (m_gridcode (carbon_src r)) df
        /\ forall l, m_lookup (carbon_src r) = Some l ->
             l ∈ lookup /\ solris_code l = m_gridcode (carbon_src r)).
Proof.
  intros Hnd bio_codes carbon_codes.
  assert (Hb : bio_codes = (groupby_sum df).*1).
  { subst bio_codes. unfold process_biocapacity_data. cbn [fst].
    rewrite <- list_fmap_compose. apply (merge_left_codes _ _ Hnd). }
  assert (Hc : carbon_codes = (groupby_sum df).*1).
  { subst carbon_codes. unfold process_carbon_sequestration. cbn [fst].
    rewrite <- list_fmap_compose. apply (merge_left_codes _ _ Hnd). }
  rewrite Hb, Hc.
  split; [apply groupby_sum_sorted|]. split; [reflexivity|].
  split; [apply groupby_sum_keys|]. split.
  - intros r Hr. apply bio_rows_elem in Hr as (m & Hm & ->). cbn [bio_src].
    apply merge_left_row in Hm as (_ & Ha & Hl). auto.
  - intros r Hr. apply carbon_rows_elem in Hr as (_ & _ & Hm).
    apply merge_left_row in Hm as (_ & Ha & Hl). auto.
Qed.

Lemma calculators_one_row_per_code_sample :
  StronglySorted Z.lt
    ((fun r => m_gridcode (bio_src r))
       <$> (process_biocapacity_data sample_df sample_lookup).1).
Proof.
  apply (calculators_one_row_per_code sample_df sample_lookup). by_decide.
Defined.

(** ** Biocapacity and carbon percentages *)

Lemma not_finite_share_zero x :
  ~ is_finite (nmul (ndiv x (Fin 0%Qc)) (Fin (qz 100))).
Proof.
  destruct x as [q| | |]; cbn -[Qc_sgn]; try tauto.
  destruct (decide (0%Qc = 0%Qc)); [|contradiction].
  destruct (Qc_sgn q); cbn; tauto.
Qed.

(** X10.  Biocapacity.  The set-wide total is always a number.  A matched
    row has biocapacity = area x conversion factor, and, when the total is
    not zero, percentage = biocapacity / total x 100.  When the total is
    zero the division is not guarded: no row has a number as its
    percentage (each is null or infinite). *)
Theorem biocapacity_formula_and_zero_total df lookup :
  exists total,
    nansum (biocapacity_gha <$> (process_biocapacity_data df lookup).1)
    = Fin total
    /\ (forall r l, r ∈ (process_biocapacity_data df lookup).1 ->
          m_lookup (bio_src r) = Some l ->
          biocapacity_gha r
          = Fin (area_hectares (bio_src r) * biocapacity_conversion_factor l)
          /\ (total <> 0%Qc ->
              bio_percentage_of_total r
              = Fin (area_hectares (bio_src r)
                     * biocapacity_conversion_factor l / total * qz 100)))
    /\ (total = 0%Qc ->
        forall r, r ∈ (process_biocapacity_data df lookup).1 ->
                  ~ is_finite (bio_percentage_of_total r)).
Proof.
  rewrite bio_rows_gha.
  set (merged := merge_left (groupby_sum df) lookup).
  assert (Hall : Forall finite_or_na (bio_gha <$> merged)).
  { apply Forall_fmap, Forall_forall. intros m _. apply bio_gha_finite_or_na. }
  exists (fin_total (bio_gha <$> merged)).
  split; [apply nansum_fin_total, Hall|]. split.
  - intros r l Hr Hl. apply bio_rows_elem in Hr as (m & Hm & ->).
    cbn [bio_src biocapacity_gha bio_percentage_of_total] in *.
    fold merged. rewrite (nansum_fin_total _ Hall).
    assert (Hg : bio_gha m
                 = Fin (area_hectares m * biocapacity_conversion_factor l)).
    { unfold bio_gha, col. rewrite Hl. reflexivity. }
    rewrite Hg. split; [reflexivity|]. intros Ht.
    apply (share_fin _ _ Ht).
  - intros Hz r Hr. apply bio_rows_elem in Hr as (m & Hm & ->).
    cbn [bio_percentage_of_total]. fold merged.
    rewrite (nansum_fin_total _ Hall), Hz. apply not_finite_share_zero.
Qed.

(** X11.  Carbon.  The percentage of every row is a number, and when the
    set-wide total carbon is zero it is 0 for every row; the ssc column is
    total_carbon x 252. *)
Theorem carbon_percentage_guarded df lookup r :
  r ∈ (process_carbon_sequestration df lookup).1 ->
  is_finite (carbon_percentage_of_total r)
  /\ (nansum (total_carbon_tc <$> (process_carbon_sequestration df lookup).1)
      = Fin 0 ->
      carbon_percentage_of_total r = Fin 0)
  /\ exists tc, total_carbon_tc r = Fin tc /\ ssc r = Fin (tc * qz 252).
Proof.
  intros Hr. rewrite carbon_rows_tc.
  pose proof (carbon_rows_elem _ _ _ Hr) as (Htc & Hssc & _).
  unfold process_carbon_sequestration in Hr. cbn [fst] in Hr.
  apply list_elem_of_fmap in Hr as (m & -> & Hm).
  cbn [carbon_percentage_of_total carbon_src total_carbon_tc ssc] in *.
  set (merged := merge_left (groupby_sum df) lookup).
  assert (Hall : Forall finite_or_na (carbon_tc <$> merged)).
  { apply Forall_fmap, Forall_forall. intros m' _.
    apply is_finite_finite_or_na, carbon_tc_finite. }
  rewrite (nansum_fin_total _ Hall), carbon_tc_formula.
  split; [|split].
  - destruct (nonzero _) eqn:Hnz; [|exact I].
    apply nonzero_fin in Hnz.
    match goal with
    | |- context [ndiv (Fin ?q) _] =>
        pose proof (share_fin _ q Hnz) as Hs
    end.
    unfold share in Hs. rewrite Hs. exact I.
  - intros [= ->]. reflexivity.
  - eexists. split; reflexivity.
Qed.

Lemma carbon_percentage_guarded_sample :
  exists r, r ∈ (process_carbon_sequestration sample_df sample_lookup).1
            /\ is_finite (carbon_percentage_of_total r).
Proof.
  destruct (process_carbon_sequestration sample_df sample_lookup).1
    as [|r rows] eqn:E; [vm_compute in E; discriminate E|].
  assert (Hr : r ∈ (process_carbon_sequestration sample_df sample_lookup).1)
    by (rewrite E; left).
  exists r. rewrite <- E. split; [exact Hr|].
  apply (carbon_percentage_guarded sample_df sample_lookup r Hr).
Defined.

(** ** Integers among the rationals *)

Lemma this_qz z : (this (qz z) == inject_Z z)%Q.
Proof. unfold qz. cbn [this Q2Qc]. apply Qred_correct. Qed.

Lemma qz_pos z : 0 < z -> (0 < qz z)%Qc.
Proof.
  intros Hz. unfold Qclt. rewrite this_qz.
  change (this 0%Qc) with 0%Q. unfold Qlt, inject_Z. cbn. lia.
Qed.

Lemma qz_nonzero z : 0 < z -> qz z <> 0%Qc.
Proof.
  intros Hz H. pose proof (Qclt_not_eq _ _ (qz_pos z Hz)) as Hp.
  congruence.
Qed.

Lemma Qcinv_nonneg (s : Qc) : (0 < s)%Qc -> (0 <= / s)%Qc.
Proof.
  unfold Qclt, Qcle, Qcinv. cbn [this Q2Qc]. rewrite !Qred_correct.
  intros H. apply Qinv_le_0_compat, Qlt_le_weak, H.
Qed.

(** ** Aesthetic quality: failure and rarity *)

Lemma fin_total_areas_pos (merged : list merged_row) :
  merged <> [] ->
  Forall (fun m => (0 < area_hectares m)%Qc) merged ->
  (0 < fin_total ((fun m => Fin (area_hectares m)) <$> merged))%Qc.
Proof.
  intros Hne Hall.
  assert (Hnn : forall l : list merged_row,
            Forall (fun m => (0 < area_hectares m)%Qc) l ->
            (0 <= fin_total ((fun m => Fin (area_hectares m)) <$> l))%Qc).
  { induction 1 as [|m l Hm _ IH]; [apply Qcle_refl|].
    rewrite fmap_cons, fin_total_cons_fin.
    replace 0%Qc with (0 + 0)%Qc by ring.
    apply Qcplus_le_compat; [apply Qclt_le_weak, Hm|exact IH]. }
  destruct Hall as [|m l Hm Hall]; [contradiction|].
  rewrite fmap_cons, fin_total_cons_fin.
  apply Qclt_le_trans with (area_hectares m); [exact Hm|].
  replace (area_hectares m) with (area_hectares m + 0)%Qc at 1 by ring.
  apply Qcplus_le_compat; [apply Qcle_refl|apply Hnn, Hall].
Qed.

Lemma Qc_sgn_Lt a : Qc_sgn a = Lt -> (0 < a)%Qc.
Proof. unfold Qc_sgn, Qccompare, Qclt. intros H. apply Qlt_alt, H. Qed.

Lemma aesthetic_score_row_zero_total m :
  (area_hectares m <= 0)%Qc ->
  aesthetic_score_row (Fin 0) m
  = Raise (ValueError "Cannot convert float NaN to integer").
Proof.
  intros Hle. unfold aesthetic_score_row, aes_percentage.
  cbn [ndiv]. destruct (decide (0%Qc = 0%Qc)); [|contradiction].
  destruct (Qc_sgn (area_hectares m)) eqn:Hs; try reflexivity.
  apply Qc_sgn_Lt in Hs. exfalso. exact (Qcle_not_lt _ _ Hle Hs).
Qed.

Lemma aesthetic_score_row_Raise t m e :
  aesthetic_score_row t m = Raise e ->
  e = ValueError "Cannot convert float NaN to integer".
Proof.
  unfold aesthetic_score_row. destruct (cut _ _ _); [discriminate|].
  intros [= <-]. reflexivity.
Qed.

(** X13.  The aesthetic calculator fails in one case only: when it keeps at
    least one row and the total area of the rows it keeps is zero, it
    raises the [ValueError] of the conversion of a null bin to an integer.
    With no kept row it returns the empty table, and with a total other
    than zero it returns a table. *)
Theorem aesthetic_fails_only_on_zero_total df lookup :
  (aesthetic_merged df lookup = [] ->
   process_aesthetic_quality df lookup = Ok [])
  /\ (aesthetic_merged df lookup <> [] ->
      total_study_area (aesthetic_merged df lookup) = Fin 0 ->
      process_aesthetic_quality df lookup
      = Raise (ValueError "Cannot convert float NaN to integer"))
  /\ (total_study_area (aesthetic_merged df lookup) <> Fin 0 ->
      exists rows, process_aesthetic_quality df lookup = Ok rows
                   /\ length rows = length (aesthetic_merged df lookup)).
Proof.
  unfold process_aesthetic_quality.
  set (merged := aesthetic_merged df lookup). split; [|split].
  - intros ->. reflexivity.
  - intros Hne Hz. rewrite Hz. rewrite areas_fin_total in Hz.
    injection Hz as Hz.
    assert (Hex : Exists (fun m => ~ (0 < area_hectares m)%Qc) merged).
    { apply not_Forall_Exists; [intros m; apply _|]. intros Hall.
      pose proof (fin_total_areas_pos merged Hne Hall) as Hpos.
      rewrite Hz in Hpos. exact (Qclt_not_eq _ _ Hpos eq_refl). }
    apply Exists_exists in Hex as (m & Hm & Ha).
    apply Qcnot_lt_le in Ha.
    destruct (collect_Raise (aesthetic_score_row (Fin 0)) merged m _ Hm
                (aesthetic_score_row_zero_total m Ha)) as [e He].
    rewrite He. f_equal.
    apply collect_Raise_inv in He as (m' & _ & He).
    eapply aesthetic_score_row_Raise, He.
  - rewrite areas_fin_total. set (t := fin_total _). intros Hne.
    assert (Ht : t <> 0%Qc) by congruence.
    destruct (collect_total (aesthetic_score_row (Fin t)) merged)
      as [rows Hrows].
    { apply Forall_forall. intros m _.
      unfold aesthetic_score_row, aes_percentage.
      change (nmul (ndiv (Fin (area_hectares m)) (Fin t)) (Fin (qz 100)))
        with (share (Fin t) (Fin (area_hectares m))).
      rewrite (share_fin _ _ Ht), cut_rarity_fin. eexists; reflexivity. }
    exists rows. split; [exact Hrows|]. eapply collect_length, Hrows.
Qed.

Lemma aesthetic_fails_only_on_zero_total_sample :
  process_aesthetic_quality [AreaRow (Some 1) (Some 0%Qc)] sample_lookup
  = Raise (ValueError "Cannot convert float NaN to integer").
Proof.
  apply (aesthetic_fails_only_on_zero_total
           [AreaRow (Some 1) (Some 0%Qc)] sample_lookup).
  - vm_compute. discriminate.
  - num_eq.
Defined.

Lemma rarity_of_range p : 1 <= rarity_of p <= 5.
Proof. unfold rarity_of. repeat case_decide; lia. Qed.

Lemma rarity_of_antitone p p' :
  (p <= p')%Qc -> rarity_of p' <= rarity_of p.
Proof.
  intros Hle. unfold rarity_of.
  repeat case_decide; try lia; exfalso; qc_order.
Qed.

(** X14.  In a table the aesthetic calculator returns, every rarity score
    lies between 1 and 5; and when the total area is positive, a row with
    at least the area of another has at most its rarity. *)
Theorem rarity_range_and_order df lookup rows :
  process_aesthetic_quality df lookup = Ok rows ->
  (forall r, r ∈ rows -> 1 <= rarity_score r <= 5)
  /\ (forall t r1 r2,
        total_study_area (aesthetic_merged df lookup) = Fin t ->
        (0 < t)%Qc ->
        r1 ∈ rows -> r2 ∈ rows ->
        (area_hectares (aes_src r1) <= area_hectares (aes_src r2))%Qc ->
        rarity_score r2 <= rarity_score r1).
Proof.
  intros Hrows. unfold process_aesthetic_quality in Hrows.
  apply collect_Ok in Hrows.
  assert (Hrow : forall r, r ∈ rows ->
            exists m, aesthetic_score_row
                        (total_study_area (aesthetic_merged df lookup)) m
                      = Ok r).
  { intros r Hr. apply list_elem_of_lookup in Hr as [i Hi].
    destruct (Forall2_lookup_r _ _ _ _ _ Hrows Hi) as (m & _ & Hm). eauto. }
  split.
  - intros r Hr. destruct (Hrow r Hr) as [m Hm].
    apply aesthetic_score_row_Ok in Hm as (_ & _ & Hc & _).
    destruct (aes_percentage _ m) as [p| | |].
    + rewrite cut_rarity_fin in Hc. injection Hc as <-. apply rarity_of_range.
    + rewrite cut_rarity_pinf in Hc. injection Hc as <-. lia.
    + rewrite cut_rarity_ninf in Hc. discriminate.
    + rewrite cut_rarity_nan in Hc. discriminate.
  - intros t r1 r2 Ht Hpos Hr1 Hr2 Hle.
    assert (Hne : t <> 0%Qc).
    { intros ->. exact (Qclt_not_eq _ _ Hpos eq_refl). }
    assert (Hr : forall r, r ∈ rows ->
              rarity_score r
              = rarity_of (area_hectares (aes_src r) / t * qz 100)).
    { intros r Hin. destruct (Hrow r Hin) as [m Hm]. rewrite Ht in Hm.
      apply aesthetic_score_row_Ok in Hm as (-> & _ & Hc & _).
      unfold aes_percentage in Hc.
      change (nmul (ndiv (Fin (area_hectares m)) (Fin t)) (Fin (qz 100)))
        with (share (Fin t) (Fin (area_hectares m))) in Hc.
      rewrite (share_fin _ _ Hne), cut_rarity_fin in Hc. congruence. }
    rewrite (Hr r1 Hr1), (Hr r2 Hr2). apply rarity_of_antitone.
    unfold Qcdiv. apply Qcmult_le_compat_r;
      [|apply Qclt_le_weak, qz_pos; lia].
    apply Qcmult_le_compat_r; [exact Hle|apply Qcinv_nonneg, Hpos].
Qed.

Lemma rarity_range_and_order_sample :
  exists rows,
    process_aesthetic_quality sample_df sample_lookup = Ok rows
    /\ forall r, r ∈ rows -> 1 <= rarity_score r <= 5.
Proof.
  destruct (process_aesthetic_quality sample_df sample_lookup)
    as [rows|e] eqn:E; [|vm_compute in E; discriminate E].
  exists rows. split; [reflexivity|].
  apply (rarity_range_and_order sample_df sample_lookup rows E).
Defined.

(** ** Cost projection: edges and shape of the series *)

Lemma series_lookup total scc_df start_year end_year rate series year :
  plot_discounted_social_cost total scc_df start_year end_year rate
  = Ok series ->
  start_year <= year <= end_year ->
  exists price,
    annual_scc_value (scc_dict scc_df) year = Ok price
    /\ series !! Z.to_nat (year - start_year)
       = Some (discounted_value (total / reference_scc) rate start_year
                 year price).
Proof.
  unfold plot_discounted_social_cost. intros Hser Hyear.
  apply collect_Ok in Hser.
  assert (Hl : seqZ start_year (end_year + 1 - start_year)
                 !! Z.to_nat (year - start_year) = Some year).
  { apply lookup_seqZ. split; lia. }
  destruct (Forall2_lookup_l _ _ _ _ _ Hser Hl) as (v & Hv & Hf).
  destruct (annual_scc_value (scc_dict scc_df) year) as [price|e];
    [|discriminate].
  injection Hf as <-. eauto.
Qed.

(** X15.  A requested range whose end lies before its start gives the empty
    series, whatever the schedule (an empty one included) and the rate.
    Otherwise, when a series is returned, its first value is not
    discounted: it is (total / 252) x the price used for the start year,
    for every rate, -1 included. *)
Theorem cost_projection_range_edges total scc_df start_year end_year rate :
  (end_year < start_year ->
   plot_discounted_social_cost total scc_df start_year end_year rate = Ok [])
  /\ (forall series,
        start_year <= end_year ->
        plot_discounted_social_cost total scc_df start_year end_year rate
        = Ok series ->
        exists price,
          annual_scc_value (scc_dict scc_df) start_year = Ok price
          /\ head series = Some (Fin (total / qz 252 * price))).
Proof.
  split.
  - intros Hlt. unfold plot_discounted_social_cost.
    rewrite seqZ_nil by lia. reflexivity.
  - intros series Hle Hser.
    destruct (series_lookup _ _ _ _ _ _ start_year Hser) as (price & Hp & Hv);
      [lia|].
    exists price. split; [exact Hp|].
    rewrite Z.sub_diag in Hv. change (Z.to_nat 0) with 0%nat in Hv.
    rewrite head_lookup, Hv. f_equal.
    unfold discounted_value. rewrite Z.sub_diag.
    change (Z.to_nat 0) with 0%nat. cbn [Qcpower].
    unfold reference_scc. rewrite ndiv_fin by qc_neq. f_equal.
    pose proof (qz_nonzero 252 ltac:(lia)) as Hc.
    revert Hc. generalize (qz 252). intros c Hc. field.
    split; [exact Hc|qc_neq].
Qed.

Lemma cost_projection_range_edges_sample :
  plot_discounted_social_cost (qz 504) [] 2030 2020 (dec 2 100) = Ok [].
Proof.
  apply (cost_projection_range_edges (qz 504) [] 2030 2020 (dec 2 100)). lia.
Defined.

(** X16.  Past the last year of the schedule the price is held at that of
    the last year, so each further year is the year before divided by
    (1 + rate). *)
Theorem cost_projection_flat_after_schedule
    total scc_df start_year end_year rate series year :
  (1 + rate)%Qc <> 0%Qc ->
  plot_discounted_social_cost total scc_df start_year end_year rate
  = Ok series ->
  start_year <= year -> year + 1 <= end_year ->
  (forall y, is_Some (scc_dict scc_df !! y) -> y <= year) ->
  exists price v,
    annual_scc_value (scc_dict scc_df) year = Ok price
    /\ annual_scc_value (scc_dict scc_df) (year + 1) = Ok price
    /\ series !! Z.to_nat (year - start_year) = Some (Fin v)
    /\ series !! S (Z.to_nat (year - start_year))
       = Some (Fin (v / (1 + rate))).
Proof.
  intros Hrate Hser Hstart Hend Hlast.
  destruct (series_lookup _ _ _ _ _ _ year Hser) as (p1 & Hp1 & Hv1); [lia|].
  destruct (series_lookup _ _ _ _ _ _ (year + 1) Hser) as (p2 & Hp2 & Hv2);
    [lia|].
  assert (p2 = p1).
  { destruct (annual_scc_value_Ok _ _ _ Hp1) as (y1 & (Hs1 & Hle1 & Hm1) & Hy1).
    destruct (annual_scc_value_Ok _ _ _ Hp2) as (y2 & (Hs2 & Hle2 & Hm2) & Hy2).
    assert (y1 = y2).
    { pose proof (Hlast y2 Hs2). pose proof (Hm1 y2 Hs2 ltac:(lia)).
      pose proof (Hm2 y1 Hs1 ltac:(lia)). lia. }
    congruence. }
  subst p2. exists p1. eexists. split; [exact Hp1|]. split; [exact Hp2|].
  rewrite discounted_value_formula in Hv1 by exact Hrate.
  rewrite discounted_value_formula in Hv2 by exact Hrate.
  split; [exact Hv1|].
  replace (S (Z.to_nat (year - start_year)))
    with (Z.to_nat (year + 1 - start_year)) by lia.
  rewrite Hv2. do 2 f_equal.
  replace (Z.to_nat (year + 1 - start_year))
    with (S (Z.to_nat (year - start_year))) by lia.
  cbn [Qcpower].
  pose proof (Qcpower_nonzero _ (Z.to_nat (year - start_year)) Hrate) as Hp.
  clear Hv1 Hv2. revert Hp Hrate.
  generalize ((1 + rate) ^ Z.to_nat (year - start_year))%Qc.
  generalize (1 + rate)%Qc. generalize (total / reference_scc * p1)%Qc.
  intros x q d Hd Hq. field. auto.
Qed.

Lemma cost_projection_flat_after_schedule_sample :
  exists series price v,
    plot_discounted_social_cost (qz 504) sample_scc 2020 2030 (dec 2 100)
    = Ok series
    /\ annual_scc_value (scc_dict sample_scc) 2027 = Ok price
    /\ series !! 6%nat = Some (Fin v)
    /\ series !! 7%nat = Some (Fin (v / (1 + dec 2 100))).
Proof.
  destruct (plot_discounted_social_cost (qz 504) sample_scc 2020 2030
              (dec 2 100)) as [series|e] eqn:E;
    [|vm_compute in E; discriminate E].
  destruct (cost_projection_flat_after_schedule (qz 504) sample_scc 2020 2030
              (dec 2 100) series 2026) as (price & v & H1 & H2 & H3 & H4).
  - qc_neq.
  - exact E.
  - lia.
  - lia.
  - intros y [w Hw]. unfold sample_scc, scc_dict in Hw.
    cbn [foldl fst snd] in Hw.
    destruct (decide (y = 2025)) as [->|?]; [lia|].
    destruct (decide (y = 2022)) as [->|?]; [lia|].
    destruct (decide (y = 2020)) as [->|?]; [lia|].
    rewrite !lookup_insert_ne, lookup_empty in Hw by congruence.
    discriminate Hw.
  - exists series, price, v. split; [reflexivity|]. auto.
Defined.

Lemma scc_dict_snoc scc_df ys :
  scc_dict (scc_df ++ [ys]) = <[ys.1 := ys.2]> (scc_dict scc_df).
Proof. unfold scc_dict. rewrite foldl_app. reflexivity. Qed.

Lemma scc_dict_keys scc_df y :
  is_Some (scc_dict scc_df !! y) <-> y ∈ scc_df.*1.
Proof.
  induction scc_df as [|[y0 v0] l IH] using rev_ind.
  - unfold scc_dict. cbn. rewrite lookup_empty, elem_of_nil.
    split; [intros [? ?]; discriminate|tauto].
  - rewrite scc_dict_snoc, fmap_app, elem_of_app, <- IH. cbn [fst snd].
    rewrite fmap_cons, list_elem_of_singleton. cbn [fst].
    destruct (decide (y = y0)) as [->|Hne].
    + rewrite lookup_insert_eq. split; eauto.
    + rewrite lookup_insert_ne by congruence. tauto.
Qed.

(** X17.  The schedule is read into a dict: a year has a price exactly when
    some row of the schedule carries it, and the price is that of the last
    such row. *)
Theorem scc_dict_last_row_wins scc_df :
  (forall y, is_Some (scc_dict scc_df !! y) <-> y ∈ scc_df.*1)
  /\ (forall before after y v,
        scc_df = before ++ (y, v) :: after -> y ∉ after.*1 ->
        scc_dict scc_df !! y = Some v).
Proof.
  split; [apply scc_dict_keys|].
  intros before after y v -> Hnot.
  induction after as [|[y0 v0] after IH] using rev_ind.
  - rewrite scc_dict_snoc. apply lookup_insert_eq.
  - rewrite app_comm_cons, app_assoc, scc_dict_snoc. cbn [fst snd].
    rewrite fmap_app, not_elem_of_app in Hnot. destruct Hnot as [Hn1 Hn2].
    rewrite lookup_insert_ne.
    + apply IH, Hn1.
    + intros ->. apply Hn2. left.
Qed.

Lemma scc_dict_last_row_wins_sample :
  scc_dict [(2020, qz 252); (2021, qz 255); (2020, qz 250)] !! 2020
  = Some (qz 250).
Proof.
  destruct (scc_dict_last_row_wins
              [(2020, qz 252); (2021, qz 255); (2020, qz 250)]) as [_ H].
  apply (H [(2020, qz 252); (2021, qz 255)] []).
  - reflexivity.
  - apply not_elem_of_nil.
Defined.

(** ** Water filtration: rows of the result *)

Lemma filter_wetland_NoDup (wf_df : list wf_entry) k :
  NoDup (wetland_type <$> wf_df) ->
  filter (fun w => wetland_type w = k) wf_df = []
  \/ exists w, filter (fun w => wetland_type w = k) wf_df = [w].
Proof.
  induction wf_df as [|w0 wf_df IH]; intros Hnd; [left; reflexivity|].
  rewrite fmap_cons in Hnd. apply NoDup_cons in Hnd as [Hnot Hnd].
  rewrite filter_cons. case_decide as Hk.
  - right. exists w0. f_equal.
    destruct (IH Hnd) as [H|[w H]]; [exact H|].
    exfalso. apply Hnot. assert (Hin : w ∈ [w]) by left. rewrite <- H in Hin.
    apply list_elem_of_filter in Hin as [Hw Hin].
    apply list_elem_of_fmap. exists w. split; [congruence|exact Hin].
  - apply IH, Hnd.
Qed.

Lemma merge_wf_src merged wf_df :
  NoDup (wetland_type <$> wf_df) ->
  fst <$> merge_wf merged wf_df = merged.
Proof.
  intros Hnd. unfold merge_wf.
  induction merged as [|m merged IH]; [reflexivity|].
  rewrite bind_cons, fmap_app, IH.
  destruct (filter_wetland_NoDup wf_df (col_solris_class m) Hnd)
    as [->|[w ->]]; reflexivity.
Qed.

Lemma water_rows_src df lookup wf_df :
  water_src <$> (process_water_filtration df lookup wf_df).1
  = fst <$> merge_wf (merge_left (groupby_sum df) lookup) wf_df.
Proof.
  unfold process_water_filtration. cbn [fst].
  rewrite <- list_fmap_compose. reflexivity.
Qed.

(** X18.  The water table never loses a code of the sheet and never has a
    code the sheet lacks.  When the reference table has one row per code
    and the wetland-value table one row per type name, it has exactly one
    row per distinct code, in increasing code order; a type name repeated
    in the wetland-value table repeats the rows of that class instead. *)
Theorem water_rows_per_code df lookup wf_df :
  (forall k, k ∈ (fun r => m_gridcode (water_src r))
                   <$> (process_water_filtration df lookup wf_df).1
             <-> Some k ∈ gridcode <$> df)
  /\ (NoDup (solris_code <$> lookup) ->
      NoDup (wetland_type <$> wf_df) ->
      (fun r => m_gridcode (water_src r))
        <$> (process_water_filtration df lookup wf_df).1
      = (groupby_sum df).*1
      /\ StronglySorted Z.lt
           ((fun r => m_gridcode (water_src r))
              <$> (process_water_filtration df lookup wf_df).1))
  /\ (forall r w1 w2 before between after,
        r ∈ (process_water_filtration df lookup wf_df).1 ->
        wf_df = before ++ w1 :: between ++ w2 :: after ->
        wetland_type w1 = col_solris_class (water_src r) ->
        wetland_type w2 = col_solris_class (water_src r) ->
        exists l1 l2,
          water_src <$> (process_water_filtration df lookup wf_df).1
          = l1 ++ water_src r :: water_src r :: l2).
Proof.
  assert (Hcodes : (fun r => m_gridcode (water_src r))
                     <$> (process_water_filtration df lookup wf_df).1
                   = m_gridcode <$> (fst <$> merge_wf
                       (merge_left (groupby_sum df) lookup) wf_df)).
  { rewrite <- water_rows_src, <- list_fmap_compose. reflexivity. }
  split; [|split].
  - intros k. rewrite Hcodes, <- groupby_sum_keys. split.
    + intros Hk. apply list_elem_of_fmap in Hk as (m & -> & Hm).
      apply list_elem_of_fmap in Hm as (mv & -> & Hmv).
      apply elem_of_merge_wf in Hmv as [Hm _].
      apply elem_of_merge_left in Hm as (ka & Hka & -> & _).
      apply list_elem_of_fmap. eauto.
    + intros Hk. apply list_elem_of_fmap in Hk as ([k' a] & -> & Hka).
      cbn [fst].
      assert (Hm : exists m, m ∈ merge_left (groupby_sum df) lookup
                             /\ m_gridcode m = k').
      { destruct (decide (k' ∈ solris_code <$> lookup)) as [Hin|Hnot].
        - apply list_elem_of_fmap in Hin as (l & Hl & Hin).
          exists (MergedRow k' a (Some l)). split; [|reflexivity].
          apply elem_of_merge_left. exists (k', a). cbn. repeat split; eauto 6.
        - exists (MergedRow k' a None). split; [|reflexivity].
          apply elem_of_merge_left. exists (k', a). cbn. repeat split; eauto. }
      destruct Hm as (m & Hm & <-).
      assert (Hmv : exists v, (m, v) ∈ merge_wf
                      (merge_left (groupby_sum df) lookup) wf_df).
      { destruct (filter (fun w => wetland_type w = col_solris_class m) wf_df)
          as [|w ws] eqn:Hf.
        - exists NaN. apply elem_of_merge_wf. cbn [fst snd].
          split; [exact Hm|]. left. split; [reflexivity|].
          intros w Hw Heq.
          assert (Hin : w ∈ filter (fun w => wetland_type w
                                             = col_solris_class m) wf_df)
            by (apply list_elem_of_filter; auto).
          rewrite Hf in Hin. inversion Hin.
        - exists (of_cell (wf_value w)). apply elem_of_merge_wf.
          cbn [fst snd]. split; [exact Hm|]. right. exists w.
          assert (Hin : w ∈ w :: ws) by left. rewrite <- Hf in Hin.
          apply list_elem_of_filter in Hin as [Heq Hin]. auto. }
      destruct Hmv as [v Hmv].
      apply list_elem_of_fmap. exists m. split; [reflexivity|].
      apply list_elem_of_fmap. exists (m, v). auto.
  - intros Hl Hw. rewrite Hcodes, (merge_wf_src _ _ Hw),
      (merge_left_codes _ _ Hl).
    split; [reflexivity|apply groupby_sum_sorted].
  - intros r w1 w2 before between after Hr Hwf H1 H2.
    assert (Hsrc : water_src r ∈ merge_left (groupby_sum df) lookup).
    { apply water_rows_elem in Hr as (mv & Hmv & -> & _).
      apply elem_of_merge_wf in Hmv as [Hm _]. exact Hm. }
    set (m := water_src r) in *.
    rewrite water_rows_src. unfold merge_wf.
    apply list_elem_of_split in Hsrc as (ms1 & ms2 & ->).
    rewrite bind_app, bind_cons, !fmap_app.
    assert (Hf : exists w ws,
              filter (fun w => wetland_type w = col_solris_class m) wf_df
              = w :: ws /\ (1 <= length ws)%nat).
    { rewrite Hwf, filter_app, filter_cons, filter_app, filter_cons.
      repeat case_decide; try contradiction.
      destruct (filter _ before) as [|b bs]; cbn [app];
        eexists _, _; (split; [reflexivity|]);
        rewrite ?length_app, ?length_cons, ?length_app, ?length_cons; lia. }
    destruct Hf as (w & ws & -> & Hlen).
    destruct ws as [|w' ws]; [cbn in Hlen; lia|].
    rewrite !fmap_cons. cbn [fst fmap list_fmap app].
    eexists _, _. reflexivity.
Qed.

Lemma clear_after_create_database_schema_sample :
  exists d',
    clear_results_for_mode "carbon_sequestration"
      (create_database_schema sample_store) = inr d'.
Proof.
  destruct (clear_after_create_database_schema sample_store) as [H _].
  apply H. by_decide.
Defined.

Lemma biocapacity_formula_and_zero_total_sample :
  exists total r,
    nansum (biocapacity_gha
              <$> (process_biocapacity_data sample_df sample_lookup).1)
    = Fin total
    /\ r ∈ (process_biocapacity_data sample_df sample_lookup).1
    /\ biocapacity_gha r
       = Fin (area_hectares (bio_src r)
              * biocapacity_conversion_factor forest).
Proof.
  destruct (biocapacity_formula_and_zero_total sample_df sample_lookup)
    as (total & Ht & Hrow & _).
  destruct (process_biocapacity_data sample_df sample_lookup).1
    as [|r rows] eqn:E; [vm_compute in E; discriminate E|].
  exists total, r.
  assert (Hr : r ∈ r :: rows) by left.
  split; [exact Ht|]. split; [exact Hr|].
  apply (Hrow r forest Hr).
  vm_compute in E. injection E as <- _. reflexivity.
Defined.

Lemma water_rows_per_code_sample :
  (fun r => m_gridcode (water_src r))
    <$> (process_water_filtration sample_df sample_lookup sample_wf).1
  = (groupby_sum sample_df).*1.
Proof.
  destruct (water_rows_per_code sample_df sample_lookup sample_wf)
    as (_ & H & _).
  apply H; by_decide.
Defined.

(** ** Percentages as shares *)

Lemma Qc_nonneg_mult a b : (0 <= a)%Qc -> (0 <= b)%Qc -> (0 <= a * b)%Qc.
Proof.
  intros Ha Hb. rewrite <- (Qcmult_0_l b). apply Qcmult_le_compat_r; assumption.
Qed.

Lemma Qc_nonneg_plus a b : (0 <= a)%Qc -> (0 <= b)%Qc -> (0 <= a + b)%Qc.
Proof.
  intros Ha Hb. replace 0%Qc with (0 + 0)%Qc by ring.
  apply Qcplus_le_compat; assumption.
Qed.

Lemma nonneg_finite_or_na xs :
  Forall nonneg_or_na xs -> Forall finite_or_na xs.
Proof.
  intros H. eapply Forall_impl; [exact H|]. intros [q| | |]; cbn; tauto.
Qed.

Lemma fin_total_nonneg xs :
  Forall nonneg_or_na xs -> (0 <= fin_total xs)%Qc.
Proof.
  induction 1 as [|x xs Hx _ IH]; [apply Qcle_refl|].
  destruct x as [q| | |]; try contradiction; [|exact IH].
  rewrite fin_total_cons_fin. apply Qc_nonneg_plus; assumption.
Qed.

Lemma fin_total_ge q xs :
  Forall nonneg_or_na xs -> Fin q ∈ xs -> (q <= fin_total xs)%Qc.
Proof.
  intros Hall Hin. induction Hall as [|x xs Hx Hall IH]; [inversion Hin|].
  apply elem_of_cons in Hin as [<-|Hin].
  - rewrite fin_total_cons_fin.
    replace q with (q + 0)%Qc at 1 by ring.
    apply Qcplus_le_compat; [apply Qcle_refl|apply fin_total_nonneg, Hall].
  - specialize (IH Hin). destruct x as [q'| | |]; try contradiction;
      [|exact IH].
    rewrite fin_total_cons_fin. replace q with (0 + q)%Qc by ring.
    apply Qcplus_le_compat; assumption.
Qed.

Lemma share_bounds q xs :
  Forall nonneg_or_na xs -> Fin q ∈ xs -> fin_total xs <> 0%Qc ->
  (0 <= q / fin_total xs * qz 100)%Qc
  /\ (q / fin_total xs * qz 100 <= qz 100)%Qc.
Proof.
  intros Hall Hin Hne.
  pose proof (fin_total_nonneg _ Hall) as Ht.
  pose proof (fin_total_ge _ _ Hall Hin) as Hq.
  assert (H0 : (0 <= q)%Qc).
  { rewrite Forall_forall in Hall. exact (Hall _ Hin). }
  assert (Hpos : (0 < fin_total xs)%Qc).
  { destruct (Qclt_le_dec 0 (fin_total xs)) as [H|H]; [exact H|].
    exfalso. apply Hne. apply Qcle_antisym; assumption. }
  pose proof (Qcinv_nonneg _ Hpos) as Hinv.
  assert (H100 : (0 <= qz 100)%Qc) by (apply Qclt_le_weak, qz_pos; lia).
  unfold Qcdiv. split.
  - apply Qc_nonneg_mult; [apply Qc_nonneg_mult|]; assumption.
  - replace (qz 100) with (fin_total xs * / fin_total xs * qz 100)%Qc at 2
      by (rewrite Qcmult_inv_r by exact Hne; ring).
    apply Qcmult_le_compat_r; [|exact H100].
    apply Qcmult_le_compat_r; assumption.
Qed.

Lemma area_of_nonneg k df :
  (forall r a, r ∈ df -> SUM_Area_Ha r = Some a -> (0 <= a)%Qc) ->
  (0 <= area_of k df)%Qc.
Proof.
  induction df as [|r df IH]; intros Hdf; [apply Qcle_refl|].
  rewrite area_of_cons.
  assert (IH' : (0 <= area_of k df)%Qc).
  { apply IH. intros r' a Hr'. apply Hdf. right. exact Hr'. }
  case_decide; [|exact IH'].
  apply Qc_nonneg_plus; [|exact IH'].
  destruct (SUM_Area_Ha r) as [a|] eqn:Ha; cbn [default];
    [|apply Qcle_refl].
  apply (Hdf r a); [left|exact Ha].
Qed.

(** X19.  On a sheet without negative areas and a reference table without
    negative coefficients, a percentage is a share: every percentage of the
    biocapacity table that is a number, and every percentage of the carbon
    table, lies between 0 and 100. *)
Theorem percentages_lie_between_0_and_100 df lookup :
  (forall r a, r ∈ df -> SUM_Area_Ha r = Some a -> (0 <= a)%Qc) ->
  (forall l, l ∈ lookup ->
     (0 <= biocapacity_conversion_factor l)%Qc
     /\ (0 <= agc_tc_ha l)%Qc /\ (0 <= bgc_tc_ha l)%Qc
     /\ (0 <= soc_tc_ha l)%Qc /\ (0 <= deoc_tc_ha l)%Qc) ->
  (forall r p, r ∈ (process_biocapacity_data df lookup).1 ->
     bio_percentage_of_total r = Fin p ->
     (0 <= p)%Qc /\ (p <= qz 100)%Qc)
  /\ (forall r, r ∈ (process_carbon_sequestration df lookup).1 ->
      exists p, carbon_percentage_of_total r = Fin p
                /\ (0 <= p)%Qc /\ (p <= qz 100)%Qc).
Proof.
  intros Hdf Hlookup.
  set (merged := merge_left (groupby_sum df) lookup).
  assert (Harea : forall m, m ∈ merged -> (0 <= area_hectares m)%Qc).
  { intros m Hm. apply merge_left_row in Hm as (_ & -> & _).
    apply area_of_nonneg, Hdf. }
  assert (Hbio : Forall nonneg_or_na (bio_gha <$> merged)).
  { apply Forall_fmap, Forall_forall. intros m Hm. unfold compose.
    unfold bio_gha, col. destruct (m_lookup m) as [l|] eqn:Hl; [|exact I].
    cbn. apply merge_left_row in Hm as Hm'. destruct Hm' as (_ & _ & Hin).
    destruct (Hin l Hl) as [Hin' _].
    apply Qc_nonneg_mult; [apply Harea, Hm|apply Hlookup, Hin']. }
  assert (Hcar : Forall nonneg_or_na (carbon_tc <$> merged)).
  { apply Forall_fmap, Forall_forall. intros m Hm. unfold compose.
    rewrite carbon_tc_formula. cbn.
    apply Qc_nonneg_mult; [|apply Harea, Hm].
    assert (Hc : forall f, (forall l, l ∈ lookup -> (0 <= f l)%Qc) ->
                           (0 <= component f m)%Qc).
    { intros f Hf. unfold component.
      destruct (m_lookup m) as [l|] eqn:Hl; [|apply Qcle_refl].
      apply merge_left_row in Hm as (_ & _ & Hin).
      apply Hf, (Hin l Hl). }
    repeat apply Qc_nonneg_plus; apply Hc; intros l Hl;
      apply Hlookup in Hl; tauto. }
  split.
  - intros r p Hr Hp. apply bio_rows_elem in Hr as (m & Hm & ->).
    cbn [bio_percentage_of_total] in Hp. fold merged in Hp.
    rewrite (nansum_fin_total _ (nonneg_finite_or_na _ Hbio)) in Hp.
    destruct (decide (fin_total (bio_gha <$> merged) = 0%Qc)) as [Hz|Hne].
    + exfalso. rewrite Hz in Hp.
      apply (not_finite_share_zero (bio_gha m)). rewrite Hp. exact I.
    + pose proof (bio_gha_finite_or_na m) as Hfn.
      destruct (bio_gha m) as [q| | |] eqn:Hq;
        try contradiction; try discriminate Hp.
      pose proof (share_fin _ q Hne) as Hs. unfold share in Hs.
      rewrite Hs in Hp. injection Hp as <-.
      apply share_bounds; [exact Hbio| |exact Hne].
      rewrite <- Hq. apply list_elem_of_fmap. eauto.
  - intros r Hr. unfold process_carbon_sequestration in Hr. cbn [fst] in Hr.
    apply list_elem_of_fmap in Hr as (m & -> & Hm).
    cbn [carbon_percentage_of_total]. fold merged.
    rewrite (nansum_fin_total _ (nonneg_finite_or_na _ Hcar)).
    destruct (nonzero _) eqn:Hnz.
    + apply nonzero_fin in Hnz.
      destruct (carbon_tc m) as [q| | |] eqn:Hq;
        try (pose proof (carbon_tc_finite m) as Hf; rewrite Hq in Hf;
             contradiction).
      pose proof (share_fin _ q Hnz) as Hs. unfold share in Hs.
      rewrite Hs. eexists. split; [reflexivity|].
      apply share_bounds; [exact Hcar| |exact Hnz].
      rewrite <- Hq. apply list_elem_of_fmap. eauto.
    + exists 0%Qc. split; [reflexivity|].
      split; [apply Qcle_refl|apply Qclt_le_weak, qz_pos; lia].
Qed.

Lemma percentages_lie_between_0_and_100_sample :
  exists r p,
    r ∈ (process_carbon_sequestration sample_df sample_lookup).1
    /\ carbon_percentage_of_total r = Fin p
    /\ (0 <= p)%Qc /\ (p <= qz 100)%Qc.
Proof.
  destruct (percentages_lie_between_0_and_100 sample_df sample_lookup)
    as [_ Hc].
  - intros r a Hr Ha. unfold sample_df in Hr.
    repeat (apply elem_of_cons in Hr as [->|Hr];
            [cbn in Ha; first [discriminate Ha
                              | injection Ha as <-; vm_compute; discriminate]|]).
    inversion Hr.
  - intros l Hl. unfold sample_lookup in Hl.
    repeat (apply elem_of_cons in Hl as [->|Hl];
            [repeat split; vm_compute; discriminate|]).
    inversion Hl.
  - destruct (process_carbon_sequestration sample_df sample_lookup).1
      as [|r rows] eqn:E; [vm_compute in E; discriminate E|].
    assert (Hr : r ∈ r :: rows) by left.
    destruct (Hc r Hr) as (p & Hp & Hb). exists r, p. auto.
Defined.
